(** * MountainSort 5: pairwise merge step and chunked phase-2 orchestration

    Shallow embedding of
      - [src/mountainsort5/core/pairwise_merge_step.py]
      - [src/mountainsort5/schemes/sorting_scheme2.py]

    Conventions.
    - Sample indices, unit ids and offsets are Python/NumPy integers; they are
      modelled as [Z] (no overflow is modelled: sample indices are far below
      the 64-bit range).
    - Positions inside an array are [nat]; a 1-D array is a [list].
    - Template and snippet amplitudes are floating point numbers in the
      source; the comparisons the code performs on them ([>], [max], [abs],
      multiplication by [0.5]) are modelled on exact rationals [Q].
    - The external collaborators (dimensionality reduction, clustering,
      detection, extraction, classification, [np.argsort], [np.median]) are
      parameters; the classifier being trained is the list of the batches
      it is given.

    Part I holds the definitions, one module per component; Part II holds
    their properties, in modules of the same names followed by [Facts], and
    in [StepFacts] those of [pairwise_merge_step] as a whole. *)

From Stdlib Require Import ZArith QArith Qabs Lia.
From stdpp Require Import base option list sorting gmap.

Local Open Scope Z_scope.

(** * Part I: the embedding *)

(** ** DuplicateResolver: [find_duplicate_times] *)

Module DuplicateResolver.

(** The two mutable locals of [find_duplicate_times]: the list [ret] that is
    appended to and the flag array [deleted]. *)
Record dup_state := DupState { ret : list nat; deleted : list bool }.

(** The inner loop
<<
    while i2 < len(times) and times[i2] <= times[i1] + tol:
        ret.append(i2); deleted[i2] = True; i2 += 1
>>
    [rest] is [times[i2:]], so [rest = []] is exactly [i2 >= len(times)] and
    the head of [rest] is [times[i2]]; [bound] is [times[i1] + tol]. *)
Fixpoint while_within (rest : list Z) (i2 : nat) (bound : Z) (s : dup_state)
  : dup_state :=
  match rest with
  | [] => s
  | t2 :: rest' =>
      if t2 <=? bound
      then while_within rest' (S i2) bound
             (DupState (ret s ++ [i2]) (<[i2:=true]> (deleted s)))
      else s
  end.

(** Body of [for i1 in range(len(times))]: [if not deleted[i1]: ...]. *)
Definition for_body (times : list Z) (tol : Z) (s : dup_state) (i1 : nat)
  : dup_state :=
  match deleted s !! i1, times !! i1 with
  | Some false, Some t1 =>
      while_within (drop (S i1) times) (S i1) (t1 + tol) s
  | _, _ => s
  end.

Definition find_duplicate_times (times : list Z) (tol : Z) : list nat :=
  ret (foldl (for_body times tol)
         (DupState [] (replicate (length times) false))
         (seq 0 (length times))).

(** The events that survive: positions of [times] that are not in the returned
    index list (the caller sets the label of the returned positions to [0] and
    then drops every zero-labelled event). *)
Fixpoint keep_from {A} (i : nat) (dups : list nat) (xs : list A) : list A :=
  match xs with
  | [] => []
  | x :: xs' =>
      if bool_decide (i ∈ dups) then keep_from (S i) dups xs'
      else x :: keep_from (S i) dups xs'
  end.

Definition kept_times (times : list Z) (tol : Z) : list Z :=
  keep_from 0 (find_duplicate_times times tol) times.

(** *** A one-pass description of the same scan

    [sweep tol bound i ts] walks [ts] (whose head has position [i]) once,
    carrying the window bound of the current anchor ([None] before the first
    anchor).  It is used to reason about the two nested loops. *)
Fixpoint sweep (tol : Z) (bound : option Z) (i : nat) (ts : list Z)
  : list nat :=
  match ts with
  | [] => []
  | t :: ts' =>
      match bound with
      | Some b =>
          if t <=? b then i :: sweep tol bound (S i) ts'
          else sweep tol (Some (t + tol)) (S i) ts'
      | None => sweep tol (Some (t + tol)) (S i) ts'
      end
  end.

(** Number of leading elements of [rest] that are within the bound. *)
Fixpoint run_length (bound : Z) (rest : list Z) : nat :=
  match rest with
  | [] => 0%nat
  | t :: rest' => if t <=? bound then S (run_length bound rest') else 0%nat
  end.

(** What the one-pass scan leaves in place. *)
Fixpoint survivors (tol : Z) (bound : option Z) (ts : list Z) : list Z :=
  match ts with
  | [] => []
  | t :: ts' =>
      match bound with
      | Some b =>
          if t <=? b then survivors tol bound ts'
          else t :: survivors tol (Some (t + tol)) ts'
      | None => t :: survivors tol (Some (t + tol)) ts'
      end
  end.

(** A position starts a tolerance chain when it is the first one, or when the
    event before it is more than [tol] earlier. *)
Definition chain_head (times : list Z) (tol : Z) (i : nat) : Prop :=
  match i with
  | O => True
  | S i' => exists p c, times !! i' = Some p /\ times !! i = Some c /\ p + tol < c
  end.

(** The chain reading of the duplicate policy: in a strictly ascending array
    in which every event is within [tol] of the event before it, every
    position but the first is returned. *)
Definition collapses_whole_chain (times : list Z) (tol : Z) : Prop :=
  Sorted Z.lt times ->
  (forall k p c, times !! k = Some p -> times !! S k = Some c -> c <= p + tol) ->
  forall k, (1 <= k < length times)%nat -> k ∈ find_duplicate_times times tol.

End DuplicateResolver.

(** ** ChunkPlanner: [TimeChunk] and [get_time_chunks] *)

Module ChunkPlanner.

(** [class TimeChunk]; the constructor derives [total_size]. *)
Record TimeChunk := MkTimeChunk {
  start : Z;
  end_ : Z;
  padding_left : Z;
  padding_right : Z;
  total_size : Z
}.

Definition TimeChunk_init (start end_ padding_left padding_right : Z)
  : TimeChunk :=
  MkTimeChunk start end_ padding_left padding_right
    (end_ - start + padding_left + padding_right).

(** The [while start < num_samples] loop.  Each unfolding of the loop body
    spends one unit of [fuel]; [None] means that the loop is still running
    when the fuel is spent. *)
Fixpoint get_time_chunks_loop (fuel : nat) (num_samples chunk_size padding : Z)
    (start : Z) (chunks : list TimeChunk) : option (list TimeChunk) :=
  if start <? num_samples then
    match fuel with
    | O => None
    | S fuel' =>
        let end0 := start + chunk_size in
        let end1 := if end0 >? num_samples then num_samples else end0 in
        let padding_left := Z.min padding start in
        let padding_right := Z.min padding (num_samples - end1) in
        get_time_chunks_loop fuel' num_samples chunk_size padding end1
          (chunks ++ [TimeChunk_init start end1 padding_left padding_right])
    end
  else Some chunks.

Definition get_time_chunks (fuel : nat) (num_samples chunk_size padding : Z)
  : option (list TimeChunk) :=
  get_time_chunks_loop fuel num_samples chunk_size padding 0 [].

(** [tiles a b chunks]: the cores [[start, end_)] of [chunks], in order, are
    non-empty, each begins where the one before ended, the first begins at
    [a] and the last ends at [b]; no chunk at all tiles an empty range. *)
Fixpoint tiles (a b : Z) (chunks : list TimeChunk) : Prop :=
  match chunks with
  | [] => b <= a
  | c :: chunks' =>
      start c = a /\ a < end_ c /\ end_ c <= b /\ tiles (end_ c) b chunks'
  end.

(** Padding is clipped to the recording and [total_size] is the padded
    extent. *)
Definition padding_clipped (num_samples padding : Z) (c : TimeChunk) : Prop :=
  padding_left c = Z.min padding (start c) /\
  padding_right c = Z.min padding (num_samples - end_ c) /\
  padding_left c <= start c /\
  end_ c + padding_right c <= num_samples /\
  total_size c = end_ c - start c + padding_left c + padding_right c.

Definition in_core (c : TimeChunk) (x : Z) : Prop := start c <= x < end_ c.

(** The claimed statement of C4 for one choice of the three arguments: the
    call returns, and what it returns tiles [[0, num_samples)] with clipped
    paddings. *)
Definition returns_tiling (num_samples chunk_size padding : Z) : Prop :=
  exists fuel chunks,
    get_time_chunks fuel num_samples chunk_size padding = Some chunks /\
    tiles 0 num_samples chunks /\
    Forall (padding_clipped num_samples padding) chunks.

End ChunkPlanner.

(** ** Exceptions and the NumPy operations the code uses *)

Module Np.

(** Python exceptions that the modelled code can raise or let through.
    [ExternalError] stands for whatever an external collaborator (the
    dimensionality reduction, the clustering primitive) raises. *)
Inductive exn :=
  | ValueError
  | AssertionError
  | ExternalError (tag : nat).

Inductive result (A : Type) :=
  | Ok (a : A)
  | Raise (e : exn).

Arguments Ok {A} a.
Arguments Raise {A} e.

#[export] Instance result_ret : MRet result := fun A a => Ok a.

#[export] Instance result_bind : MBind result := fun A B f m =>
  match m with
  | Ok a => f a
  | Raise e => Raise e
  end.

(** [np.max] of a 1-D integer array: a zero-size array has no maximum. *)
Definition np_max (xs : list Z) : result Z :=
  match xs with
  | [] => Raise ValueError
  | x :: xs' => Ok (foldl Z.max x xs')
  end.

(** [a.reshape((L, T * M))] of an [L x T x M] array: every [T x M] block is
    laid out row after row. *)
Definition reshape_rows (a : list (list (list Q))) : list (list Q) :=
  map (fun block => concat block) a.

(** [a.T] of a 2-D array whose rows have the length of the first row. *)
Definition transpose (a : list (list Q)) : list (list Q) :=
  map (fun j => map (fun row => nth j row 0%Q) a)
      (seq 0 (length (hd [] a))).

(** [np.roll(a, shift, axis=0)] of a 1-D array or of the rows of a 2-D one:
    the element at position [i] moves to position [(i + shift) mod len]. *)
Definition roll {A} (shift : Z) (xs : list A) : list A :=
  match xs with
  | [] => []
  | _ =>
      let n := length xs in
      let k := (n - Z.to_nat (shift mod Z.of_nat n))%nat in
      drop k xs ++ take k xs
  end.

(** [np.nonzero(mask)[0]]: the positions at which [mask] holds. *)
Fixpoint nonzero_from (i : nat) (mask : list bool) : list nat :=
  match mask with
  | [] => []
  | b :: mask' =>
      if b then i :: nonzero_from (S i) mask' else nonzero_from (S i) mask'
  end.

Definition nonzero (mask : list bool) : list nat := nonzero_from 0 mask.

End Np.

(** ** MergeTester: [test_merge] *)

Module MergeTester.

Import Np.

Section TestMerge.

(** The two external collaborators.  [compute_pca_features X npca] projects
    the rows of [X]; [isosplit6 X] returns one cluster label per column of
    [X].  Either may raise. *)
Variable compute_pca_features : list (list Q) -> Z -> result (list (list Q)).
Variable isosplit6 : list (list Q) -> result (list Z).

Definition test_merge (snippets1 snippets2 : list (list (list Q)))
  : result bool :=
  let V1 := reshape_rows snippets1 in
  let V2 := reshape_rows snippets2 in
  let Vall := V1 ++ V2 in
  features0 ← compute_pca_features Vall 12;
  labels0 ← isosplit6 (transpose features0);
  m ← np_max labels0;
  mret (m =? 1).

End TestMerge.

(** [offset_snippets]: every snippet is rolled along its time axis. *)
Definition offset_snippets (snippets : list (list (list Q))) (offset : Z)
  : list (list (list Q)) :=
  map (roll offset) snippets.

(** The claimed guard of C7: fewer samples than the 12 components requested
    always gives the answer [false]. *)
Definition few_samples_give_false
    (pca : list (list Q) -> Z -> result (list (list Q)))
    (iso : list (list Q) -> result (list Z)) : Prop :=
  forall snippets1 snippets2,
    (length snippets1 + length snippets2 < 12)%nat ->
    test_merge pca iso snippets1 snippets2 = Ok false.

(** A reduction step that refuses more components than there are samples. *)
Definition pca_strict (X : list (list Q)) (npca : Z)
  : result (list (list Q)) :=
  if Z.of_nat (length X) <? npca then Raise ValueError
  else Ok (map (take (Z.to_nat npca)) X).

(** A reduction step that lowers the component count to what is available. *)
Definition pca_capped (X : list (list Q)) (npca : Z)
  : result (list (list Q)) :=
  Ok (map (take (Z.to_nat (Z.min npca (Z.of_nat (length X))))) X).

(** A clustering that finds a single cluster. *)
Definition iso_single (X : list (list Q)) : result (list Z) :=
  Ok (replicate (length (hd [] X)) 1).

Definition one_snippet : list (list (list Q)) := [[[1%Q; 2%Q]; [3%Q; 4%Q]]].

End MergeTester.

(** ** PairwiseMergeEngine: [pairwise_merge_step] *)

Module PairwiseMerge.

Import Np MergeTester DuplicateResolver.

(** Arrays are taken well-shaped, as NumPy hands them over: [templates] is
    [K x T x M] (a list of [K] blocks of [T] rows of [M] amplitudes),
    [snippets] is [L x T x M], [times] and [labels] have length [L] and are
    kept as one list of rows, and [unit_ids] has length [K].  Indexing that is
    in range on such arrays reads with a default value; the exceptions that
    depend on the values (a maximum over a zero-size axis, a failing
    [test_merge], the [assert]) are modelled. *)

Record event := Event { time : Z; label : Z }.

(** The dict stored under [merges[unit_ids[i1]]]. *)
Record merge_record := MergeRecord {
  unit_id1 : Z;
  unit_id2 : Z;
  offset : Z
}.

#[export] Instance Q_inhabited : Inhabited Q := populate 0%Q.

#[export] Instance event_inhabited : Inhabited event := populate (Event 0 0).

(** [x > y] on amplitudes. *)
Definition Qgtb (x y : Q) : bool := negb (Qle_bool x y).

(** [np.max] and [np.argmax] of a 1-D amplitude array; [np.argmax] returns
    the first position of the maximum. *)
Definition np_maxQ (xs : list Q) : result Q :=
  match xs with
  | [] => Raise ValueError
  | x :: xs' => Ok (foldl (fun m y => if Qgtb y m then y else m) x xs')
  end.

Fixpoint argmax_from (best : Q) (besti i : nat) (xs : list Q) : nat :=
  match xs with
  | [] => besti
  | x :: xs' =>
      if Qgtb x best then argmax_from x i (S i) xs'
      else argmax_from best besti (S i) xs'
  end.

Definition np_argmax (xs : list Q) : result nat :=
  match xs with
  | [] => Raise ValueError
  | x :: xs' => Ok (argmax_from x 0 1 xs')
  end.

(** Channel [m] of a [T x M] block, over time. *)
Definition channel (a : list (list Q)) (m : nat) : list Q :=
  map (fun row => nth m row 0%Q) a.

Definition num_channels (a : list (list Q)) : nat := length (hd [] a).

(** [np.max(a, axis=0)] and [np.argmax(a, axis=0)] of a [T x M] block: one
    value per channel; with [T = 0] there is nothing to reduce. *)
Definition max_axis0 (a : list (list Q)) : result (list Q) :=
  match a with
  | [] => Raise ValueError
  | _ => mapM (fun m => np_maxQ (channel a m)) (seq 0 (num_channels a))
  end.

Definition argmax_axis0 (a : list (list Q)) : result (list nat) :=
  match a with
  | [] => Raise ValueError
  | _ => mapM (fun m => np_argmax (channel a m)) (seq 0 (num_channels a))
  end.

(** [A]: the templates made positive-going according to [detect_sign]. *)
Definition rectify (detect_sign : Z) (templates : list (list (list Q)))
  : list (list (list Q)) :=
  if detect_sign <? 0 then map (map (map Qopp)) templates
  else if detect_sign >? 0 then templates
  else map (map (map Qabs)) templates.

(** The three per-unit summaries computed before the pair scan. *)
Record peak_tables := PeakTables {
  peak_channel_indices : list nat;
  peak_values_on_channels : list (list Q);
  peak_time_indices_on_channels : list (list nat)
}.

Definition compute_peak_tables (A : list (list (list Q))) : result peak_tables :=
  pci ← mapM (fun Ai => v ← max_axis0 Ai; np_argmax v) A;
  pv ← mapM max_axis0 A;
  pti ← mapM argmax_axis0 A;
  mret (PeakTables pci pv pti).

(** A [for] loop whose body may raise. *)
Fixpoint for_each {S I : Type} (body : S -> I -> result S) (s : S)
    (iter : list I) : result S :=
  match iter with
  | [] => Ok s
  | i :: iter' => s' ← body s i; for_each body s' iter'
  end.

(** [snippets[new_labels == unit_id]]. *)
Definition select_snippets (snippets : list (list (list Q)))
    (labels : list Z) (unit_id : Z) : list (list (list Q)) :=
  (filter (fun p => p.2 = unit_id) (zip snippets labels)).*1.

(** The dict [merges], and (as instrumentation only) the pairs for which
    [test_merge] has been called, in call order. *)
Record scan_state := ScanState {
  merges : gmap Z merge_record;
  tested : list (nat * nat)
}.

Section Scan.

Variable compute_pca_features : list (list Q) -> Z -> result (list (list Q)).
Variable isosplit6 : list (list Q) -> result (list Z).
Variable snippets : list (list (list Q)).
Variable labels : list Z.
Variable unit_ids : list Z.
Variable tables : peak_tables.

Definition peak_channel (i : nat) : nat := peak_channel_indices tables !!! i.

Definition peak_value (i m : nat) : Q :=
  (peak_values_on_channels tables !!! i) !!! m.

Definition peak_time (i m : nat) : Z :=
  Z.of_nat ((peak_time_indices_on_channels tables !!! i) !!! m).

Definition offset1 (i1 i2 : nat) : Z :=
  peak_time i2 (peak_channel i1) - peak_time i1 (peak_channel i1).

Definition offset2 (i1 i2 : nat) : Z :=
  peak_time i2 (peak_channel i2) - peak_time i1 (peak_channel i2).

(** The three nested [if]s in front of the call of [test_merge]. *)
Definition is_candidate (i1 i2 : nat) : bool :=
  if Z.abs (offset1 i1 i2 - offset2 i1 i2) <=? 4 then
    if Qgtb (peak_value i1 (peak_channel i2))
            ((1 # 2) * peak_value i2 (peak_channel i2)) then
      if Qgtb (peak_value i2 (peak_channel i1))
              ((1 # 2) * peak_value i1 (peak_channel i1)) then true
      else false
    else false
  else false.

(** The call of [test_merge] for the pair. *)
Definition run_test_merge (i1 i2 : nat) : result bool :=
  test_merge compute_pca_features isosplit6
    (offset_snippets (select_snippets snippets labels (unit_ids !!! i1))
                     (offset1 i1 i2))
    (select_snippets snippets labels (unit_ids !!! i2)).

(** Body of the inner loop. *)
Definition scan_pair (i1 : nat) (s : scan_state) (i2 : nat)
  : result scan_state :=
  if is_candidate i1 i2 then
    ok ← run_test_merge i1 i2;
    let called := tested s ++ [(i1, i2)] in
    if (ok : bool) then
      mret (ScanState
              (<[unit_ids !!! i1 :=
                   MergeRecord (unit_ids !!! i1) (unit_ids !!! i2)
                               (offset1 i1 i2)]> (merges s))
              called)
    else mret (ScanState (merges s) called)
  else mret s.

(** [for i1 in range(K): for i2 in range(i1 - 1, -1, -1): ...] *)
Definition scan_pairs (K : nat) : result scan_state :=
  for_each
    (fun s i1 => for_each (scan_pair i1) s (reverse (seq 0 i1)))
    (ScanState ∅ [])
    (seq 0 K).

(** The pair passes the three template criteria and the merge test. *)
Definition found (p : nat * nat) : bool :=
  is_candidate p.1 p.2 &&
  match run_test_merge p.1 p.2 with
  | Ok true => true
  | _ => false
  end.

(** The record written for a pair. *)
Definition record_of (p : nat * nat) : merge_record :=
  MergeRecord (unit_ids !!! p.1) (unit_ids !!! p.2) (offset1 p.1 p.2).

Definition record_pair (m : gmap Z merge_record) (p : nat * nat)
  : gmap Z merge_record :=
  if found p then <[unit_ids !!! p.1 := record_of p]> m else m.

End Scan.

(** The candidate-scan phase: rectify, summarise, scan all pairs. *)
Definition candidate_scan
    (compute_pca_features : list (list Q) -> Z -> result (list (list Q)))
    (isosplit6 : list (list Q) -> result (list Z))
    (snippets templates : list (list (list Q))) (labels : list Z)
    (detect_sign : Z) (unit_ids : list Z) : result scan_state :=
  let K := length templates in
  let A := rectify detect_sign templates in
  tables ← compute_peak_tables A;
  scan_pairs compute_pca_features isosplit6 snippets labels unit_ids tables K.

(** *** Applying the merges *)

(** [new_times[inds1] += offset; new_labels[inds1] = unit_id2] for
    [inds1 = nonzero(new_labels == unit_id1)]. *)
Definition apply_merge (mm : merge_record) (events : list event) : list event :=
  map (fun e =>
         if label e =? unit_id1 mm
         then Event (time e + offset mm) (unit_id2 mm)
         else e) events.

(** Body of [for unit_id in unit_ids[::-1]]. *)
Definition apply_step (merges : gmap Z merge_record) (events : list event)
    (unit_id : Z) : result (list event) :=
  match merges !! unit_id with
  | Some mm =>
      if unit_id =? unit_id1 mm then mret (apply_merge mm events)
      else Raise AssertionError
  | None => mret events
  end.

Definition apply_merges (merges : gmap Z merge_record) (unit_ids : list Z)
    (events : list event) : result (list event) :=
  for_each (apply_step merges) events (reverse unit_ids).

(** *** Removing the duplicates that the merges created *)

(** The positions [inds0[duplicate_inds]] whose label is set to [0] for one
    unit; nothing is looked for when the unit has no event. *)
Definition duplicate_positions (events : list event) (tol : Z) (unit_id : Z)
  : list nat :=
  let inds0 := nonzero (map (fun e => bool_decide (label e = unit_id)) events) in
  match inds0 with
  | [] => []
  | _ =>
      let times0 := map (fun i => time (events !!! i)) inds0 in
      let duplicate_inds := find_duplicate_times times0 tol in
      map (fun d => inds0 !!! d) duplicate_inds
  end.

Definition clear_label (events : list event) (i : nat) : list event :=
  alter (fun e => Event (time e) 0) i events.

(** Body of [for unit_id in unit_ids] in the duplicate removal. *)
Definition remove_unit_duplicates (tol : Z) (events : list event)
    (unit_id : Z) : list event :=
  foldl clear_label events (duplicate_positions events tol unit_id).

(** [nonzero_inds = np.nonzero(new_labels)[0]] and the final selection. *)
Definition drop_removed (events : list event) : list event :=
  filter (fun e => label e <> 0) events.

Section Step.

Variable compute_pca_features : list (list Q) -> Z -> result (list (list Q)).
Variable isosplit6 : list (list Q) -> result (list Z).

(** [np.argsort(new_times)] followed by the reordering of both arrays: some
    rearrangement of the rows that is ascending in time. *)
Variable sort_by_time : list event -> list event.

Definition pairwise_merge_step
    (snippets templates : list (list (list Q))) (events : list event)
    (detect_sign : Z) (unit_ids : list Z) (detect_time_radius : Z)
  : result (list event) :=
  s ← candidate_scan compute_pca_features isosplit6 snippets templates
        (map label events) detect_sign unit_ids;
  merged ← apply_merges (merges s) unit_ids events;
  let sorted := sort_by_time merged in
  let marked := foldl (remove_unit_duplicates detect_time_radius) sorted unit_ids in
  mret (drop_removed marked).

End Step.

(** *** The merge-application phase, event by event *)

(** What one iteration of the application loop does to a single event. *)
Definition step_event (merges : gmap Z merge_record) (e : event) (u : Z)
  : event :=
  match merges !! u with
  | Some mm =>
      if label e =? unit_id1 mm
      then Event (time e + offset mm) (unit_id2 mm)
      else e
  | None => e
  end.

(** What the whole loop over [us] does to a single event. *)
Definition track (merges : gmap Z merge_record) (us : list Z) (e : event)
  : event :=
  foldl (step_event merges) e us.

(** Every record is stored under its own source id. *)
Definition keys_consistent (merges : gmap Z merge_record) : Prop :=
  forall u mm, merges !! u = Some mm -> unit_id1 mm = u.

(** Some record that the loop meets has a target with a record of its own. *)
Definition pending_target (merges : gmap Z merge_record) (unit_ids : list Z)
  : Prop :=
  exists u mm, u ∈ unit_ids /\ merges !! u = Some mm /\
               is_Some (merges !! unit_id2 mm).

(** The claimed behaviour of C3 on one input. *)
Definition pending_target_is_fatal (merges : gmap Z merge_record)
    (unit_ids : list Z) (events : list event) : Prop :=
  pending_target merges unit_ids ->
  exists e, apply_merges merges unit_ids events = Raise e.

(** The claimed behaviour of C5 on one input. *)
Definition chain_lands_on (merges : gmap Z merge_record) (unit_ids : list Z)
    (events : list event) (C B A o1 o2 : Z) : Prop :=
  A < B < C ->
  merges !! C = Some (MergeRecord C B o1) ->
  merges !! B = Some (MergeRecord B A o2) ->
  exists events',
    apply_merges merges unit_ids events = Ok events' /\
    forall i e, events !! i = Some e ->
      (label e = C -> events' !! i = Some (Event (time e + o1 + o2) A)) /\
      (label e = B -> events' !! i = Some (Event (time e + o2) A)).

Definition chain2 : gmap Z merge_record :=
  <[3 := MergeRecord 3 2 5]> (<[2 := MergeRecord 2 1 7]> ∅).

Definition chain3 : gmap Z merge_record :=
  <[4 := MergeRecord 4 3 1]> chain2.

(** Three one-channel units of amplitudes 1, 9/5 and 16/5, the second
    peaking one sample later than the others: units 1 and 2 pass the
    amplitude criterion, so do units 2 and 3, units 1 and 3 do not. *)
Definition templates_chain : list (list (list Q)) :=
  [ [[1%Q]; [0%Q]]; [[0%Q]; [9 # 5]]; [[16 # 5]; [0%Q]] ].

(** The records the scan writes for them. *)
Definition merges_chain : gmap Z merge_record :=
  <[3 := MergeRecord 3 2 1]> (<[2 := MergeRecord 2 1 (-1)]> ∅).

(** *** The pair scan *)

(** The pairs in the order in which the two loops visit them. *)
Definition pair_order (K : nat) : list (nat * nat) :=
  i1 ← seq 0 K; (fun i2 => (i1, i2)) <$> reverse (seq 0 i1).

(** The claimed policy of C1 on one input: for a source unit, the record of
    the first pair found in scan order (the largest [i2]) is the one
    retained. *)
Definition first_found_wins
    (pca : list (list Q) -> Z -> result (list (list Q)))
    (iso : list (list Q) -> result (list Z))
    (snippets templates : list (list (list Q))) (labels : list Z)
    (detect_sign : Z) (unit_ids : list Z) : Prop :=
  forall s tables,
    candidate_scan pca iso snippets templates labels detect_sign unit_ids
      = Ok s ->
    compute_peak_tables (rectify detect_sign templates) = Ok tables ->
    forall i1 i2, (i2 < i1 < length templates)%nat ->
      found pca iso snippets labels unit_ids tables (i1, i2) = true ->
      (forall j, (i2 < j < i1)%nat ->
         found pca iso snippets labels unit_ids tables (i1, j) = false) ->
      merges s !! (unit_ids !!! i1)
        = Some (record_of unit_ids tables (i1, i2)).

(** Three units with the same two-sample, one-channel template and one
    snippet each. *)
Definition template_a : list (list Q) := [[1%Q]; [2%Q]].

Definition templates3 : list (list (list Q)) :=
  [template_a; template_a; template_a].

Definition tables3 : peak_tables :=
  PeakTables [0; 0; 0]%nat [[2%Q]; [2%Q]; [2%Q]] [[1]; [1]; [1]]%nat.

(** *** Peaks and dominant channels, described without the tables *)

(** [v] is the largest element of [xs] and [t] is the first position at
    which it stands. *)
Definition first_max (xs : list Q) (t : nat) (v : Q) : Prop :=
  xs !! t = Some v /\
  Forall (fun x => (x <= v)%Q) xs /\
  forall t' x, (t' < t)%nat -> xs !! t' = Some x -> (x < v)%Q.

(** [v] is the largest amplitude of channel [m] of the block [a], and [t] is
    the first time index at which the channel reaches it. *)
Definition peak_on_channel (a : list (list Q)) (m t : nat) (v : Q) : Prop :=
  first_max (channel a m) t v.

(** [c] is the dominant channel of the block [a]: the first channel whose
    peak amplitude is the largest of all channels. *)
Definition dominant_channel (a : list (list Q)) (c : nat) : Prop :=
  (c < num_channels a)%nat /\
  forall t v, peak_on_channel a c t v ->
    (forall m t' v', (m < num_channels a)%nat ->
       peak_on_channel a m t' v' -> (v' <= v)%Q) /\
    (forall m t' v', (m < c)%nat -> peak_on_channel a m t' v' -> (v' < v)%Q).

(** The two criteria of candidate generation, in the words of the
    specification: the two relative-offset estimates, each taken on the
    dominant channel of one of the two units, agree within 4 samples; and
    the amplitude of each unit on the dominant channel of the other exceeds
    half of the amplitude that the other has there. *)
Definition merge_candidate (A : list (list (list Q))) (i1 i2 : nat) : Prop :=
  exists a1 a2 c1 c2 t11 t12 t21 t22 v11 v12 v21 v22,
    A !! i1 = Some a1 /\ A !! i2 = Some a2 /\
    dominant_channel a1 c1 /\ dominant_channel a2 c2 /\
    peak_on_channel a1 c1 t11 v11 /\ peak_on_channel a1 c2 t12 v12 /\
    peak_on_channel a2 c1 t21 v21 /\ peak_on_channel a2 c2 t22 v22 /\
    Z.abs ((Z.of_nat t21 - Z.of_nat t11) - (Z.of_nat t22 - Z.of_nat t12)) <= 4 /\
    ((1 # 2) * v22 < v12)%Q /\
    ((1 # 2) * v11 < v21)%Q.

(** All blocks have [T] rows of [M] amplitudes. *)
Definition well_shaped (A : list (list (list Q))) (T M : nat) : Prop :=
  Forall (fun a => length a = T /\ Forall (fun row => length row = M) a) A.

(** *** The duplicate removal, one unit at a time *)

(** The times of the events of one unit, in array order:
    [new_times[np.nonzero(new_labels == unit_id)[0]]]. *)
Definition unit_times (unit_id : Z) (events : list event) : list Z :=
  map time (filter (fun e => label e = unit_id) events).

(** A one-pass description of what one iteration of the duplicate removal
    does to the event array: the events of the unit are walked in array
    order, [bound] being the window of the current anchor, and an event of
    the unit inside the window gets the label [0].  It is used to reason
    about the positions [inds0[duplicate_inds]]. *)
Fixpoint mark_duplicates (unit_id tol : Z) (bound : option Z)
    (events : list event) : list event :=
  match events with
  | [] => []
  | e :: events' =>
      if bool_decide (label e = unit_id) then
        match bound with
        | Some b =>
            if time e <=? b
            then Event (time e) 0 :: mark_duplicates unit_id tol bound events'
            else e :: mark_duplicates unit_id tol (Some (time e + tol)) events'
        | None => e :: mark_duplicates unit_id tol (Some (time e + tol)) events'
        end
      else e :: mark_duplicates unit_id tol bound events'
  end.

End PairwiseMerge.

(** ** StreamingSortOrchestrator: the chunk loop of [sorting_scheme2] *)

Module Orchestrator.

Import Np ChunkPlanner DuplicateResolver PairwiseMerge.

(** Modelled from the spec: [remove_duplicate_events] is imported from
    [core/pairwise_merge_step.py], whose source does not define it.  The
    specification (sections 2, 4.1 and 4.6) describes it as the
    DuplicateResolver applied to the events of each label with the given
    tolerance, the events it removes being dropped from the result. *)
Definition remove_duplicate_events (events : list event) (tol : Z)
  : list event :=
  let unit_ids := remove_dups (map label events) in
  drop_removed (foldl (remove_unit_duplicates tol) events unit_ids).

(** [int(math.ceil(100e6 / num_channels))], for at least one channel. *)
Definition chunk_size (num_channels : Z) : Z :=
  (100000000 + num_channels - 1) / num_channels.

(** Time-ascending rows. *)
Definition ascending (events : list event) : Prop :=
  StronglySorted Z.le (map time events).

(** The margin test of one chunk on a chunk-local time. *)
Definition in_window (c : TimeChunk) (t : Z) : Prop :=
  padding_left c <= t /\ t < total_size c - padding_right c.

#[export] Instance in_window_dec c t : Decision (in_window c t).
Proof. unfold in_window. apply _. Defined.

Section Phase2.

(** The external collaborators, with the sorting parameters they are called
    with fixed: trace access, detection (given the time radius), snippet
    extraction, the fitted classifier, and [np.argsort] with the reordering
    that follows it. *)
Variables traces snippet_batch : Type.
Variable get_traces : Z -> Z -> traces.
Variable detect_spikes : traces -> Z -> list Z * list Z.
Variable extract_snippets : traces -> list Z -> list Z -> snippet_batch.
Variable classify_snippets : snippet_batch -> list Z * list Z.
Variable sort_by_time : list event -> list event.
Variable time_radius : Z.

(** Detection, extraction, classification and offset correction of one
    chunk: the chunk-local [times_chunk - offsets_chunk] with their labels. *)
Definition classify_chunk (c : TimeChunk) : list event :=
  let traces_chunk :=
    get_traces (start c - padding_left c) (end_ c + padding_right c) in
  let '(times_chunk, channel_indices_chunk) :=
    detect_spikes traces_chunk time_radius in
  let snippets2 :=
    extract_snippets traces_chunk times_chunk channel_indices_chunk in
  let '(labels_chunk, offsets_chunk) := classify_snippets snippets2 in
  let times_chunk := zip_with Z.sub times_chunk offsets_chunk in
  zip_with Event times_chunk labels_chunk.

(** The rest of the loop body: re-sort, remove duplicates, trim the margins,
    move to the global sample axis. *)
Definition process_chunk (c : TimeChunk) : list event :=
  let sorted := sort_by_time (classify_chunk c) in
  let deduplicated := remove_duplicate_events sorted time_radius in
  let valid := filter (fun e => in_window c (time e)) deduplicated in
  map (fun e => Event (time e + start c - padding_left c) (label e)) valid.

(** [np.concatenate] of the per-chunk results; it refuses an empty list. *)
Definition concatenate (results : list (list event)) : result (list event) :=
  match results with
  | [] => Raise ValueError
  | _ => Ok (concat results)
  end.

(** Phase 2 of [sorting_scheme2]; [None] when the chunk planner is still
    running after [fuel] iterations. *)
Definition sorting_scheme2_phase2 (fuel : nat) (num_samples num_channels : Z)
  : option (result (list event)) :=
  chunks ← get_time_chunks fuel num_samples (chunk_size num_channels) 1000;
  Some (concatenate (map process_chunk chunks)).

End Phase2.

(** Some labels of [l] have been set to [0] in [l']. *)
Definition cleared (l l' : list event) : Prop :=
  Forall2 (fun e e' => e' = e \/ e' = Event (time e) 0) l l'.

(** A stable sort on the times, as one possible [np.argsort]. *)
Definition time_le (e e' : event) : Prop := time e <= time e'.

#[export] Instance time_le_dec e e' : Decision (time_le e e').
Proof. unfold time_le. apply _. Defined.

Definition sort_events (events : list event) : list event :=
  merge_sort time_le events.

End Orchestrator.

(** ** Training of the classifier: the first loop of [sorting_scheme2] *)

Module Training.

Import Np MergeTester PairwiseMerge.

(** [np.arange(0, n)]. *)
Definition arange (n : Z) : list Z := map Z.of_nat (seq 0 (Z.to_nat n)).

(** [subsample_snippets]: at most [max_num] of the snippets, taken at the
    positions [i * num_snippets // max_num]. *)
Definition subsample_snippets {A} `{Inhabited A} (snippets : list A)
    (max_num : Z) : list A :=
  let num_snippets := Z.of_nat (length snippets) in
  if num_snippets >? max_num then
    let inds := map (fun i => i * num_snippets / max_num) (arange max_num) in
    map (fun i => snippets !!! Z.to_nat i) inds
  else snippets.

(** [np.concatenate] of 1-D arrays; it refuses an empty list of arrays. *)
Definition np_concatenate {A} (arrays : list (list A)) : result (list A) :=
  match arrays with
  | [] => Raise ValueError
  | _ => Ok (concat arrays)
  end.

(** [np.unique] of a 1-D integer array: its distinct values, ascending. *)
Definition np_unique (xs : list Z) : list Z :=
  merge_sort Z.le (remove_dups xs).

(** [get_times_labels_from_sorting].  The sorting object is given by what
    the function reads from it: the unit ids in the order of
    [get_unit_ids()], each with its spike train.  [np.argsort] and the
    reordering that follows it are the parameter [sort_by_time]. *)
Definition get_times_labels_from_sorting
    (sort_by_time : list event -> list event)
    (sorting : list (Z * list Z)) : result (list event) :=
  let times_list := map (fun unit => unit.2) sorting in
  let labels_list :=
    map (fun unit => map (fun _ => 1 * unit.1) unit.2) sorting in
  times ← np_concatenate times_list;
  labels ← np_concatenate labels_list;
  mret (sort_by_time (zip_with Event times labels)).

(** One call of [snippet_classifer.add_training_snippets]. *)
Record training_batch := TrainingBatch {
  batch_snippets : list (list (list Q));
  batch_label : Z;
  batch_offset : Z
}.

(** The template of one unit made positive-going ([AA]). *)
Definition rectify_template (detect_sign : Z) (template0 : list (list Q))
  : list (list Q) :=
  if detect_sign <? 0 then map (map Qopp) template0
  else if detect_sign >? 0 then template0
  else map (map Qabs) template0.

Section TrainClassifier.

(** [np.median(snippets0, axis=0)] of at least one snippet. *)
Variable median : list (list (list Q)) -> list (list Q).

(** The sorting parameters that the loop reads, the number [M] of channels
    of the recording, and the number [T] of time samples of a snippet. *)
Variable detect_sign : Z.
Variable detect_threshold : Q.
Variable snippet_T1 : Z.
Variable max_num_snippets_per_training_batch : Z.
Variable M : nat.
Variable T : nat.

(** The loop over the channels followed by [np.unique]. *)
Definition offsets_to_include (AA : list (list Q)) : result (list Z) :=
  peak_indices_over_channels ← argmax_axis0 AA;
  peak_values_over_channels ← max_axis0 AA;
  mret
    (np_unique
       (foldl
          (fun offsets m =>
             if Qgtb (peak_values_over_channels !!! m)
                     (detect_threshold * (1 # 2))
             then offsets
                  ++ [Z.of_nat (peak_indices_over_channels !!! m) - snippet_T1]
             else offsets)
          [] (seq 0 M))).

(** The calls of [add_training_snippets] for the offsets of one unit. *)
Definition add_batches (snippets0 : list (list (list Q))) (k : Z)
    (batches : list training_batch) (offsets : list Z)
  : list training_batch :=
  foldl
    (fun batches offset =>
       batches
       ++ [TrainingBatch
             (subsample_snippets (offset_snippets snippets0 (- offset))
                max_num_snippets_per_training_batch)
             k offset])
    batches offsets.

(** Body of [for k in range(1, K + 1)]; [batches] is the list of batches
    that the classifier has been given so far.  For a label without events
    the median is NaN in every entry (NumPy warns and returns): no comparison
    with NaN holds, so no offset is included, while the reductions over an
    empty time axis still fail. *)
Definition train_unit (training_snippets : list (list (list Q)))
    (labels : list Z) (batches : list training_batch) (k : Z)
  : result (list training_batch) :=
  let snippets0 := select_snippets training_snippets labels k in
  match snippets0 with
  | [] => match T with
          | O => Raise ValueError
          | _ => Ok batches
          end
  | _ =>
      let template0 := median snippets0 in
      let AA := rectify_template detect_sign template0 in
      offsets ← offsets_to_include AA;
      mret (add_batches snippets0 k batches offsets)
  end.

(** [K = np.max(labels)] and the training loop: the batches given to the
    classifier, in call order. *)
Definition train_classifier (training_snippets : list (list (list Q)))
    (labels : list Z) : result (list training_batch) :=
  K ← np_max labels;
  for_each (train_unit training_snippets labels) []
    (map Z.of_nat (seq 1 (Z.to_nat K))).

End TrainClassifier.

(** [np.median] of the snippets of a unit that has some returns a block with
    [T] rows, the first of which has [M] entries. *)
Definition median_shaped (median : list (list (list Q)) -> list (list Q))
    (T M : nat) (snippets0 : list (list (list Q))) : Prop :=
  snippets0 <> [] ->
  length (median snippets0) = T /\ num_channels (median snippets0) = M.

End Training.

(** * Part II: properties *)

(** ** Properties of the duplicate scan *)

Module DuplicateResolverFacts.
Import DuplicateResolver.

Lemma run_length_le bound rest : (run_length bound rest <= length rest)%nat.
Proof.
  induction rest as [|t rest IH]; simpl; [lia|].
  destruct (t <=? bound); simpl; lia.
Qed.

Lemma while_within_ret rest : forall i2 bound s,
  ret (while_within rest i2 bound s) = ret s ++ seq i2 (run_length bound rest).
Proof.
  induction rest as [|t rest IH]; intros i2 bound s; simpl.
  - by rewrite app_nil_r.
  - destruct (t <=? bound); simpl.
    + rewrite IH. simpl. by rewrite <- app_assoc.
    + by rewrite app_nil_r.
Qed.

Lemma while_within_deleted_length rest : forall i2 bound s,
  length (deleted (while_within rest i2 bound s)) = length (deleted s).
Proof.
  induction rest as [|t rest IH]; intros i2 bound s; simpl; [done|].
  destruct (t <=? bound); [|done].
  rewrite IH. simpl. apply length_insert.
Qed.

Lemma while_within_deleted rest : forall i2 bound s j,
  (i2 + length rest <= length (deleted s))%nat ->
  deleted (while_within rest i2 bound s) !! j =
    if bool_decide (i2 <= j < i2 + run_length bound rest)%nat
    then Some true else deleted s !! j.
Proof.
  induction rest as [|t rest IH]; intros i2 bound s j Hlen; simpl in *.
  - rewrite bool_decide_eq_false_2; [done|lia].
  - destruct (t <=? bound).
    + rewrite IH; simpl; [|rewrite length_insert; lia].
      destruct (decide (j = i2)) as [->|Hne].
      * rewrite (bool_decide_eq_true_2 (i2 <= i2 < _)%nat); [|lia].
        case_bool_decide; [done|].
        apply list_lookup_insert_eq. lia.
      * rewrite list_lookup_insert_ne; [|done].
        repeat case_bool_decide; try done; lia.
    + rewrite bool_decide_eq_false_2; [done|lia].
Qed.

Lemma sweep_run tol b rest : forall i,
  sweep tol (Some b) i rest =
    seq i (run_length b rest)
      ++ sweep tol None (i + run_length b rest) (drop (run_length b rest) rest).
Proof.
  induction rest as [|t rest IH]; intros i; simpl; [done|].
  destruct (t <=? b) eqn:Ht; simpl.
  - rewrite IH. do 3 f_equal. lia.
  - by rewrite Nat.add_0_r.
Qed.

(** The outer loop, resumed at position [k] with the first unflagged
    position at [f >= k], produces what the one-pass scan produces from [f]. *)
Lemma outer_loop_sweep times tol : forall m k f r del,
  (k + m = length times)%nat ->
  (k <= f <= length times)%nat ->
  length del = length times ->
  (forall j, (k <= j < f)%nat -> del !! j = Some true) ->
  (forall j, (f <= j < length times)%nat -> del !! j = Some false) ->
  ret (foldl (for_body times tol) (DupState r del) (seq k m))
  = r ++ sweep tol None f (drop f times).
Proof.
  induction m as [|m IH]; intros k f r del Hk Hf Hlen Htrue Hfalse.
  - simpl. assert (f = length times) as -> by lia.
    rewrite drop_all. simpl. by rewrite app_nil_r.
  - simpl. unfold for_body at 2. simpl.
    destruct (decide (k < f)%nat) as [Hlt|Hge].
    + rewrite Htrue; [|lia]. apply IH; try done; try lia.
      intros j Hj. apply Htrue. lia.
    + assert (f = k) as -> by lia.
      rewrite Hfalse; [|lia].
      destruct (lookup_lt_is_Some_2 times k) as [t1 Ht1]; [lia|].
      rewrite Ht1.
      set (rest := drop (S k) times).
      set (c := run_length (t1 + tol) rest).
      assert (Hc : (c <= length rest)%nat) by apply run_length_le.
      assert (Hrest : length rest = (length times - S k)%nat)
        by (unfold rest; by rewrite length_drop).
      destruct (while_within rest (S k) (t1 + tol) (DupState r del))
        as [r' del'] eqn:Hw.
      assert (Hr' : r' = r ++ seq (S k) c).
      { change r' with (ret (DupState r' del')). rewrite <- Hw.
        by rewrite while_within_ret. }
      assert (Hdl : length del' = length times).
      { change del' with (deleted (DupState r' del')). rewrite <- Hw.
        by rewrite while_within_deleted_length. }
      assert (Hd' : forall j, del' !! j =
                 if bool_decide (S k <= j < S k + c)%nat
                 then Some true else del !! j).
      { intros j. change del' with (deleted (DupState r' del')).
        rewrite <- Hw. apply while_within_deleted. simpl. lia. }
      rewrite (IH (S k) (S k + c)%nat r' del'); try done; try lia.
      * rewrite Hr'. rewrite <- app_assoc. f_equal.
        rewrite (drop_S times t1 k Ht1). simpl.
        fold rest. rewrite sweep_run. fold c.
        do 2 f_equal. unfold rest. by rewrite drop_drop.
      * intros j Hj. rewrite Hd'. rewrite bool_decide_eq_true_2; [done|lia].
      * intros j Hj. rewrite Hd'. rewrite bool_decide_eq_false_2; [|lia].
        apply Hfalse. lia.
Qed.

(** The nested loops of the source compute the one-pass scan. *)
Lemma find_duplicate_times_sweep times tol :
  find_duplicate_times times tol = sweep tol None 0 times.
Proof.
  unfold find_duplicate_times.
  rewrite (outer_loop_sweep times tol (length times) 0 0 []); try done.
  - lia.
  - by rewrite length_replicate.
  - intros j Hj. lia.
  - intros j Hj. apply lookup_replicate_2. lia.
Qed.

(** *** Facts about the one-pass scan *)

Lemma sweep_bounds tol : forall ts bound i,
  Forall (fun j => (i <= j < i + length ts)%nat) (sweep tol bound i ts).
Proof.
  induction ts as [|t ts IH]; intros bound i; simpl; [constructor|].
  assert (Hw : forall b', Forall (fun j => (i <= j < i + S (length ts))%nat)
                            (sweep tol b' (S i) ts)).
  { intros b'. eapply Forall_impl; [apply IH|]. simpl. intros j Hj. lia. }
  destruct bound as [b|]; [|apply Hw].
  destruct (t <=? b); [|apply Hw].
  constructor; [lia|apply Hw].
Qed.

Lemma sweep_ge tol ts bound i j :
  j ∈ sweep tol bound i ts -> (i <= j < i + length ts)%nat.
Proof.
  intros Hj. by apply (proj1 (Forall_forall _ _) (sweep_bounds tol ts bound i)).
Qed.

Lemma sweep_None_gt tol ts i j :
  j ∈ sweep tol None i ts -> (i < j < i + length ts)%nat.
Proof.
  destruct ts as [|t ts]; simpl; [by intros ?%elem_of_nil|].
  intros Hj%sweep_ge. lia.
Qed.

Lemma sweep_sorted tol : forall ts bound i,
  StronglySorted lt (sweep tol bound i ts).
Proof.
  induction ts as [|t ts IH]; intros bound i; simpl; [constructor|].
  destruct bound as [b|]; [|apply IH].
  destruct (t <=? b); [|apply IH].
  constructor; [apply IH|].
  eapply Forall_impl; [apply sweep_bounds|]. simpl. intros j Hj. lia.
Qed.

Lemma keep_from_ext {A} (xs : list A) : forall i d1 d2,
  (forall j, (i <= j)%nat -> j ∈ d1 <-> j ∈ d2) ->
  keep_from i d1 xs = keep_from i d2 xs.
Proof.
  induction xs as [|x xs IH]; intros i d1 d2 Hext; simpl; [done|].
  rewrite (IH (S i) d1 d2); [|intros j Hj; apply Hext; lia].
  rewrite (bool_decide_ext (i ∈ d1) (i ∈ d2)); [done|].
  apply Hext. lia.
Qed.

Lemma keep_from_sweep tol : forall ts bound i,
  keep_from i (sweep tol bound i ts) ts = survivors tol bound ts.
Proof.
  induction ts as [|t ts IH]; intros bound i; simpl; [done|].
  assert (Hfresh : forall b', i ∉ sweep tol b' (S i) ts).
  { intros b' Hi%sweep_ge. lia. }
  destruct bound as [b|].
  - destruct (t <=? b).
    + rewrite bool_decide_eq_true_2; [|by left].
      rewrite <- (IH (Some b) (S i)). apply keep_from_ext.
      intros j Hj. rewrite elem_of_cons. split; [|by right].
      intros [->|]; [lia|done].
    + rewrite bool_decide_eq_false_2; [|apply Hfresh]. by rewrite IH.
  - rewrite bool_decide_eq_false_2; [|apply Hfresh]. by rewrite IH.
Qed.

Lemma survivors_sublist tol : forall ts bound,
  sublist (survivors tol bound ts) ts.
Proof.
  induction ts as [|t ts IH]; intros bound; simpl; [constructor|].
  destruct bound as [b|]; [destruct (t <=? b)|].
  - by apply sublist_cons.
  - by apply sublist_skip.
  - by apply sublist_skip.
Qed.

Lemma sweep_survivors tol : forall ts bound i,
  sweep tol bound i (survivors tol bound ts) = [].
Proof.
  induction ts as [|t ts IH]; intros bound i; simpl; [done|].
  destruct bound as [b|].
  - destruct (t <=? b) eqn:Ht; [apply IH|].
    simpl. rewrite Ht. apply IH.
  - simpl. apply IH.
Qed.

(** Every removed position is removed because of an anchor: either an
    earlier position of [ts] that the scan leaves in place, or the anchor whose
    window [bound] was inherited. *)
Lemma sweep_anchor tol : forall ts bound i j,
  j ∈ sweep tol bound i ts ->
  exists tj, ts !! (j - i)%nat = Some tj /\
    ((exists a ta, (i <= a < j)%nat /\ (a ∉ sweep tol bound i ts) /\
                   ts !! (a - i)%nat = Some ta /\ tj <= ta + tol)
     \/ (exists b, bound = Some b /\ tj <= b)).
Proof.
  induction ts as [|t ts IH]; intros bound i j Hj; simpl in *.
  { by apply elem_of_nil in Hj. }
  assert (Hnew : j ∈ sweep tol (Some (t + tol)) (S i) ts ->
    i ∉ sweep tol (Some (t + tol)) (S i) ts ->
    exists tj, (t :: ts) !! (j - i)%nat = Some tj /\
      (exists a ta, (i <= a < j)%nat /\
         (a ∉ sweep tol (Some (t + tol)) (S i) ts) /\
         (t :: ts) !! (a - i)%nat = Some ta /\ tj <= ta + tol)).
  { intros Hj' Hi. pose proof (sweep_ge _ _ _ _ _ Hj') as Hge.
    destruct (IH _ _ _ Hj') as (tj & Htj & Hcase).
    exists tj. replace (j - i)%nat with (S (j - S i)) by lia.
    split; [done|].
    destruct Hcase as [(a & ta & Ha & Hna & Hta & Hle)|(b & [= <-] & Hle)].
    - exists a, ta. replace (a - i)%nat with (S (a - S i)) by lia.
      repeat split; try done; lia.
    - exists i, t. rewrite Nat.sub_diag. repeat split; try done; lia. }
  assert (Hfresh : forall b', i ∉ sweep tol b' (S i) ts).
  { intros b' Hi%sweep_ge. lia. }
  destruct bound as [b|].
  - destruct (t <=? b) eqn:Ht.
    + apply elem_of_cons in Hj as [->|Hj].
      * exists t. rewrite Nat.sub_diag. split; [done|].
        right. exists b. split; [done|lia].
      * pose proof (sweep_ge _ _ _ _ _ Hj) as Hge.
        destruct (IH _ _ _ Hj) as (tj & Htj & Hcase).
        exists tj. replace (j - i)%nat with (S (j - S i)) by lia.
        split; [done|].
        destruct Hcase as [(a & ta & Ha & Hna & Hta & Hle)|Hb]; [left|by right].
        exists a, ta. replace (a - i)%nat with (S (a - S i)) by lia.
        repeat split; try done; try lia.
        rewrite elem_of_cons. intros [->|?]; [lia|done].
    + destruct (Hnew Hj (Hfresh _)) as (tj & Htj & Hex). eauto.
  - destruct (Hnew Hj (Hfresh _)) as (tj & Htj & Hex). eauto.
Qed.

(** In a time-ascending array, a position whose predecessor is more than
    [tol] earlier is never removed. *)
Lemma sweep_chain_head tol : forall ts p b i j,
  Sorted Z.le (p :: ts) ->
  b <= p + tol ->
  j ∈ sweep tol (Some b) i ts ->
  exists prev cur, (p :: ts) !! (j - i)%nat = Some prev /\
                   ts !! (j - i)%nat = Some cur /\ cur <= prev + tol.
Proof.
  induction ts as [|t ts IH]; intros p b i j Hs Hb Hj; simpl in *.
  { by apply elem_of_nil in Hj. }
  apply Sorted_inv in Hs as [Hs Hhd]. apply HdRel_inv in Hhd.
  assert (Hrec : forall b', b' <= t + tol ->
    j ∈ sweep tol (Some b') (S i) ts ->
    exists prev cur, (p :: t :: ts) !! (j - i)%nat = Some prev /\
                     (t :: ts) !! (j - i)%nat = Some cur /\ cur <= prev + tol).
  { intros b' Hb' Hj'. pose proof (sweep_ge _ _ _ _ _ Hj') as Hge.
    destruct (IH t b' (S i) j Hs Hb' Hj') as (prev & cur & H1 & H2 & H3).
    exists prev, cur. replace (j - i)%nat with (S (j - S i)) by lia.
    by repeat split. }
  destruct (t <=? b) eqn:Ht.
  - apply elem_of_cons in Hj as [->|Hj].
    + exists p, t. rewrite Nat.sub_diag. repeat split; try done. lia.
    + apply (Hrec b); [lia|done].
  - apply (Hrec (t + tol)); [lia|done].
Qed.

Lemma Sorted_le_lookup (l : list Z) a j x y :
  Sorted Z.le l -> l !! a = Some x -> l !! j = Some y -> (a <= j)%nat ->
  x <= y.
Proof.
  intros Hs Ha Hj Hle.
  apply (Sorted_StronglySorted) in Hs; [|intros ???; lia].
  destruct (decide (a = j)) as [->|Hne].
  - assert (x = y) by congruence. lia.
  - revert a j Ha Hj Hle Hne. induction Hs as [|z l Hs IH Hall];
      intros a j Ha Hj Hle Hne; [done|].
    destruct a as [|a], j as [|j]; simpl in *; try lia.
    + injection Ha as ->. rewrite Forall_forall in Hall.
      apply Hall. by eapply list_elem_of_lookup_2.
    + apply (IH a j); try done; lia.
Qed.

(** All events within the window of the first event are removed, wherever
    they stand relative to each other. *)
Lemma sweep_all_within tol b : forall ts i,
  Forall (fun t => t <= b) ts ->
  sweep tol (Some b) i ts = seq i (length ts).
Proof.
  induction ts as [|t ts IH]; intros i Hall; simpl; [done|].
  apply Forall_cons in Hall as [Ht Hall].
  destruct (Z.leb_spec t b); [|lia]. by rewrite IH.
Qed.

Lemma run_length_within b ts t rest :
  Forall (fun x => x <= b) ts -> b < t ->
  run_length b (ts ++ t :: rest) = length ts.
Proof.
  intros Hall Ht. induction Hall as [|x ts Hx Hall IH]; simpl.
  - destruct (Z.leb_spec t b); [lia|done].
  - destruct (Z.leb_spec x b); [|lia]. by rewrite IH.
Qed.

(** Positions are relative to where the scan starts. *)
Lemma sweep_shift tol : forall ts bound k i,
  sweep tol bound (k + i) ts = map (fun j => (k + j)%nat) (sweep tol bound i ts).
Proof.
  induction ts as [|t ts IH]; intros bound k i; simpl; [done|].
  replace (S (k + i)) with (k + S i)%nat by lia.
  destruct bound as [b|]; [|apply IH].
  destruct (t <=? b); simpl; [|apply IH]. by rewrite IH.
Qed.

(** *** Properties of [find_duplicate_times] *)

Lemma find_duplicate_times_range times tol :
  StronglySorted lt (find_duplicate_times times tol) /\
  Forall (fun i => (1 <= i < length times)%nat) (find_duplicate_times times tol).
Proof.
  rewrite find_duplicate_times_sweep. split; [apply sweep_sorted|].
  apply Forall_forall. intros j Hj%sweep_None_gt. lia.
Qed.

Lemma StronglySorted_lt_NoDup (l : list nat) : StronglySorted lt l -> NoDup l.
Proof.
  induction 1 as [|x l Hs IH Hall]; constructor; [|done].
  rewrite Forall_forall in Hall. intros Hx%Hall. lia.
Qed.




(** C9: on a time-ascending array the surviving events are a sub-sequence of
    the input; every chain head survives; every removed event lies within
    [tol] after an earlier surviving event; and a second run on the survivors
    removes nothing. *)
Theorem find_duplicate_times_idempotent (times : list Z) (tol : Z) :
  Sorted Z.le times ->
  sublist (kept_times times tol) times /\
  (forall i, chain_head times tol i -> i ∉ find_duplicate_times times tol) /\
  (forall j tj, j ∈ find_duplicate_times times tol -> times !! j = Some tj ->
     exists a ta, (a < j)%nat /\ (a ∉ find_duplicate_times times tol) /\
                  times !! a = Some ta /\ ta <= tj <= ta + tol) /\
  find_duplicate_times (kept_times times tol) tol = [].
Proof.
  intros Hs. unfold kept_times. rewrite !find_duplicate_times_sweep.
  rewrite keep_from_sweep. repeat split.
  - apply survivors_sublist.
  - intros [|i] Hhead Hin.
    + apply sweep_None_gt in Hin. lia.
    + destruct Hhead as (p & c & Hp & Hc & Hlt).
      destruct times as [|t ts]; [done|]. simpl in Hin.
      destruct (sweep_chain_head tol ts t (t + tol) 1 (S i) Hs) 
        as (prev & cur & H1 & H2 & H3); [lia|done|].
      simpl in *. rewrite Nat.sub_0_r in *. simplify_eq. lia.
  - intros j tj Hj Htj.
    destruct (sweep_anchor tol times None 0 j Hj) as (tj' & Htj' & Hcase).
    rewrite Nat.sub_0_r in Htj'. simplify_eq.
    destruct Hcase as [(a & ta & Ha & Hna & Hta & Hle)|(b & ? & _)]; [|done].
    rewrite Nat.sub_0_r in Hta. exists a, ta. repeat split; try done; try lia.
    apply (Sorted_le_lookup times a j); try done. lia.
  - apply sweep_survivors.
Qed.

Lemma find_duplicate_times_idempotent_witness :
  Sorted Z.le [100; 103; 250] /\
  find_duplicate_times (kept_times [100; 103; 250] 5) 5 = [].
Proof.
  assert (Hs : Sorted Z.le [100; 103; 250]) by (repeat constructor; lia).
  split; [exact Hs|].
  apply (find_duplicate_times_idempotent [100; 103; 250] 5 Hs).
Defined.

(** *** Further properties of the duplicate scan *)

Lemma survivors_separated tol : forall ts bound,
  Sorted (fun a b => a + tol < b) (survivors tol bound ts) /\
  forall b x, bound = Some b -> head (survivors tol bound ts) = Some x -> b < x.
Proof.
  induction ts as [|t ts IH]; intros bound; simpl.
  { split; [constructor|]. intros b x _ Hx. discriminate Hx. }
  assert (Hkeep : Sorted (fun a b => a + tol < b)
                    (t :: survivors tol (Some (t + tol)) ts)).
  { destruct (IH (Some (t + tol))) as [Hs Hhd]. constructor; [done|].
    destruct (survivors tol (Some (t + tol)) ts) as [|x l] eqn:Hl;
      constructor. by apply (Hhd (t + tol) x). }
  destruct bound as [b|].
  - destruct (Z.leb_spec t b) as [Hle|Hgt].
    + apply IH.
    + split; [done|]. intros b' x [= <-] [= <-]. done.
  - split; [done|]. intros b' x Hb'. discriminate Hb'.
Qed.


Lemma sweep_nil_iff tol : forall ts bound i,
  sweep tol bound i ts = [] <->
  Sorted (fun a b => a + tol < b) ts /\
  forall b x, bound = Some b -> head ts = Some x -> b < x.
Proof.
  induction ts as [|t ts IH]; intros bound i; simpl.
  { split; [|done]. intros _. split; [constructor|]. intros b x _ Hx.
    discriminate Hx. }
  assert (Hnext : sweep tol (Some (t + tol)) (S i) ts = [] <->
                  Sorted (fun a b => a + tol < b) (t :: ts)).
  { rewrite IH. split.
    - intros [Hs Hhd]. constructor; [done|].
      destruct ts as [|x ts]; constructor. by apply (Hhd (t + tol) x).
    - intros Hs. apply Sorted_inv in Hs as [Hs Hhd]. split; [done|].
      intros b x [= <-] Hx. destruct ts as [|y ts]; [done|].
      injection Hx as ->. by apply HdRel_inv in Hhd. }
  destruct bound as [b|].
  - destruct (Z.leb_spec t b) as [Hle|Hgt].
    + split; [done|]. intros [_ Hhd]. specialize (Hhd b t eq_refl eq_refl). lia.
    + rewrite Hnext. split; [|by intros [? _]].
      intros Hs. split; [done|]. intros b' x [= <-] [= <-]. done.
  - rewrite Hnext. split; [|by intros [? _]].
    intros Hs. split; [done|]. intros b' x Hb'. discriminate Hb'.
Qed.


Lemma survivors_sweep_length tol : forall ts bound i,
  (length (survivors tol bound ts) + length (sweep tol bound i ts))%nat
  = length ts.
Proof.
  induction ts as [|t ts IH]; intros bound i; simpl; [done|].
  destruct bound as [b|].
  - destruct (t <=? b); simpl.
    + rewrite Nat.add_succ_r. f_equal. apply IH.
    + f_equal. apply IH.
  - simpl. f_equal. apply IH.
Qed.

(** X3: Every event is either kept or returned: the kept times are a
    sub-sequence of the input that begins with its first event, and the kept
    and the returned positions together count the input. *)
Theorem kept_times_complement (times : list Z) (tol : Z) :
  sublist (kept_times times tol) times /\
  (length (kept_times times tol) + length (find_duplicate_times times tol))%nat
    = length times /\
  head (kept_times times tol) = head times.
Proof.
  unfold kept_times. rewrite find_duplicate_times_sweep, keep_from_sweep.
  split_and!.
  - apply survivors_sublist.
  - apply survivors_sweep_length.
  - by destruct times.
Qed.

End DuplicateResolverFacts.

(** ** Properties of the chunk plan *)

Module ChunkPlannerFacts.
Import ChunkPlanner.

Lemma tiles_lower a b chunks c :
  tiles a b chunks -> c ∈ chunks -> a <= start c /\ end_ c <= b.
Proof.
  revert a. induction chunks as [|c0 chunks IH]; intros a Ht Hc; simpl in *.
  { by apply elem_of_nil in Hc. }
  destruct Ht as (Hs & Hlt & Hle & Ht).
  apply elem_of_cons in Hc as [->|Hc]; [lia|].
  destruct (IH _ Ht Hc). lia.
Qed.

(** Every position of [[a, b)] is in the core of exactly one chunk. *)
Lemma tiles_unique_cover a b chunks x :
  tiles a b chunks -> a <= x < b ->
  exists i c, chunks !! i = Some c /\ in_core c x /\
    forall i' c', chunks !! i' = Some c' -> in_core c' x -> i' = i.
Proof.
  revert a. induction chunks as [|c0 chunks IH]; intros a Ht Hx; simpl in *.
  { lia. }
  destruct Ht as (Hs & Hlt & Hle & Ht).
  destruct (decide (x < end_ c0)) as [Hin|Hout].
  - exists 0%nat, c0. repeat split; try done; try lia.
    intros [|i'] c' Hc' [Hlo Hhi]; [done|]. simpl in Hc'.
    destruct (tiles_lower _ _ _ c' Ht); [by eapply list_elem_of_lookup_2|]. lia.
  - destruct (IH (end_ c0) Ht) as (i & c & Hc & Hcore & Huniq); [lia|].
    exists (S i), c. repeat split; try done; try apply Hcore.
    intros [|i'] c' Hc' Hcore'; simpl in Hc'.
    + simplify_eq. destruct Hcore'. lia.
    + f_equal. by eapply Huniq.
Qed.

Lemma get_time_chunks_loop_spec num_samples chunk_size padding :
  0 < chunk_size ->
  forall fuel start acc,
    0 <= start ->
    (Z.to_nat (num_samples - start) <= fuel)%nat ->
    exists rest,
      get_time_chunks_loop fuel num_samples chunk_size padding start acc
        = Some (acc ++ rest) /\
      tiles start num_samples rest /\
      Forall (padding_clipped num_samples padding) rest.
Proof.
  intros Hcs. induction fuel as [|fuel IH]; intros start acc H0 Hfuel.
  - exists []. simpl. destruct (Z.ltb_spec start num_samples); [lia|].
    rewrite app_nil_r. repeat split; [simpl; lia|constructor].
  - simpl. destruct (Z.ltb_spec start num_samples) as [Hlt|Hge].
    + set (end1 := if start + chunk_size >? num_samples
                   then num_samples else start + chunk_size).
      assert (Hend : start < end1 <= num_samples).
      { unfold end1. destruct (Z.gtb_spec (start + chunk_size) num_samples); lia. }
      destruct (IH end1
                  (acc ++ [TimeChunk_init start end1 (Z.min padding start)
                             (Z.min padding (num_samples - end1))]))
        as (rest & Hrun & Htiles & Hpad); [lia|lia|].
      eexists (_ :: rest). rewrite Hrun. rewrite <- app_assoc. simpl.
      split; [reflexivity|]. split; [simpl; repeat split; try done; lia|].
      constructor; [|done]. unfold padding_clipped. simpl. lia.
    + exists []. rewrite app_nil_r. repeat split; [simpl; lia|constructor].
Qed.

Lemma tiles_core_nonempty a b chunks c :
  tiles a b chunks -> c ∈ chunks -> start c < end_ c.
Proof.
  revert a. induction chunks as [|c0 chunks IH]; intros a Ht Hc; simpl in *.
  { by apply elem_of_nil in Hc. }
  destruct Ht as (Hs & Hlt & Hle & Ht).
  apply elem_of_cons in Hc as [->|Hc]; [lia|by eapply IH].
Qed.

(** Consecutive chunks of a tiling share their boundary. *)
Lemma tiles_adjacent a b chunks i c c' :
  tiles a b chunks -> chunks !! i = Some c -> chunks !! S i = Some c' ->
  end_ c = start c' /\ start c < end_ c.
Proof.
  revert a i. induction chunks as [|c0 chunks IH]; intros a i Ht Hc Hc'.
  { done. }
  destruct Ht as (Hs & Hlt & Hle & Ht). destruct i as [|i]; simpl in *.
  - injection Hc as <-. destruct chunks as [|c1 chunks]; [done|].
    injection Hc' as <-. destruct Ht as (Hs1 & _). lia.
  - by apply (IH (end_ c0) i).
Qed.

(** More fuel does not change a result that was reached. *)
Lemma get_time_chunks_loop_fuel fuel num_samples chunk_size padding :
  forall start acc r fuel',
    get_time_chunks_loop fuel num_samples chunk_size padding start acc = Some r ->
    (fuel <= fuel')%nat ->
    get_time_chunks_loop fuel' num_samples chunk_size padding start acc = Some r.
Proof.
  induction fuel as [|fuel IH]; intros start acc r fuel' Hrun Hle.
  - destruct fuel'; simpl in *; destruct (start <? num_samples); done.
  - destruct fuel' as [|fuel']; [lia|]. simpl in *.
    destruct (start <? num_samples); [|done].
    apply IH; [done|lia].
Qed.

(** C4 (as stated) fails for a chunk size that is not positive: with
    [num_samples = 1] and [chunk_size = 0] the loop never advances [start],
    so the call returns nothing, whatever the number of iterations allowed. *)
Lemma get_time_chunks_zero_chunk_size :
  (forall fuel, get_time_chunks fuel 1 0 0 = None) /\ ~ returns_tiling 1 0 0.
Proof.
  assert (Hloop : forall fuel acc, get_time_chunks_loop fuel 1 0 0 0 acc = None).
  { induction fuel as [|fuel IH]; intros acc; simpl; [done|apply IH]. }
  split; [intros fuel; apply Hloop|].
  intros (fuel & chunks & Hret & _). unfold get_time_chunks in Hret.
  by rewrite Hloop in Hret.
Qed.

Lemma get_time_chunks_returns_tiling num_samples chunk_size padding :
  0 < chunk_size ->
  exists chunks,
    (forall fuel, (Z.to_nat num_samples <= fuel)%nat ->
       get_time_chunks fuel num_samples chunk_size padding = Some chunks) /\
    tiles 0 num_samples chunks /\
    Forall (padding_clipped num_samples padding) chunks.
Proof.
  intros Hcs.
  destruct (get_time_chunks_loop_spec num_samples chunk_size padding Hcs
              (Z.to_nat num_samples) 0 []) as (chunks & Hrun & Ht & Hp);
    [lia|by rewrite Z.sub_0_r|].
  exists chunks. split; [|done].
  intros fuel Hfuel. unfold get_time_chunks.
  by apply (get_time_chunks_loop_fuel (Z.to_nat num_samples)).
Qed.

(** C4 (amended): for every sample count, every positive chunk size and every
    padding, [get_time_chunks] returns (any fuel of at least [num_samples]
    iterations is enough, and the result does not depend on it); the cores of
    the returned chunks tile [[0, num_samples)] in order, so every sample
    position is in the core of exactly one chunk; and every padding is clipped
    to the recording. *)
Theorem get_time_chunks_tiles (num_samples chunk_size padding : Z) :
  0 < chunk_size ->
  exists chunks,
    (forall fuel, (Z.to_nat num_samples <= fuel)%nat ->
       get_time_chunks fuel num_samples chunk_size padding = Some chunks) /\
    tiles 0 num_samples chunks /\
    (forall x, 0 <= x < num_samples ->
       exists i c, chunks !! i = Some c /\ in_core c x /\
         forall i' c', chunks !! i' = Some c' -> in_core c' x -> i' = i) /\
    Forall (padding_clipped num_samples padding) chunks.
Proof.
  intros Hcs.
  destruct (get_time_chunks_returns_tiling num_samples chunk_size padding Hcs)
    as (chunks & Hrun & Ht & Hp).
  exists chunks. split_and!; try done.
  intros x Hx. by apply (tiles_unique_cover 0 num_samples).
Qed.

Lemma get_time_chunks_tiles_witness :
  0 < 4 /\
  exists chunks,
    get_time_chunks 10 10 4 1 = Some chunks /\ tiles 0 10 chunks.
Proof.
  split; [lia|].
  destruct (get_time_chunks_tiles 10 4 1) as (chunks & Hrun & Ht & _); [lia|].
  exists chunks. split; [apply Hrun; simpl; lia|exact Ht].
Defined.

(** *** Further properties of the chunk plan *)

Lemma get_time_chunks_loop_closed_form num_samples chunk_size padding :
  0 < chunk_size ->
  forall fuel s0 acc,
    (Z.to_nat (num_samples - s0) <= fuel)%nat ->
    exists rest,
      get_time_chunks_loop fuel num_samples chunk_size padding s0 acc
        = Some (acc ++ rest) /\
      length rest
        = Z.to_nat ((num_samples - s0 + chunk_size - 1) / chunk_size) /\
      forall k c, rest !! k = Some c ->
        start c = s0 + Z.of_nat k * chunk_size /\
        end_ c = Z.min (s0 + (Z.of_nat k + 1) * chunk_size) num_samples.
Proof.
  intros Hcs. induction fuel as [|fuel IH]; intros s acc Hfuel.
  - exists []. simpl. destruct (Z.ltb_spec s num_samples); [lia|].
    rewrite app_nil_r. split; [done|]. split; [|done]. simpl.
    assert ((num_samples - s + chunk_size - 1) / chunk_size <= 0); [|lia].
    apply Z.lt_succ_r, Z.div_lt_upper_bound; lia.
  - simpl. destruct (Z.ltb_spec s num_samples) as [Hlt|Hge].
    + set (end1 := if s + chunk_size >? num_samples
                   then num_samples else s + chunk_size).
      assert (Hend : end1 = Z.min (s + chunk_size) num_samples).
      { unfold end1. destruct (Z.gtb_spec (s + chunk_size) num_samples); lia. }
      destruct (IH end1
                  (acc ++ [TimeChunk_init s end1 (Z.min padding s)
                             (Z.min padding (num_samples - end1))]))
        as (rest & Hrun & Hlen & Hk); [lia|].
      eexists (_ :: rest). rewrite Hrun, <- app_assoc. simpl.
      split; [reflexivity|]. split.
      * rewrite Hlen.
        destruct (Z.le_gt_cases (s + chunk_size) num_samples) as [Hfull|Hpart].
        -- replace end1 with (s + chunk_size) by lia.
           replace (num_samples - s + chunk_size - 1)
             with ((num_samples - (s + chunk_size) + chunk_size - 1)
                   + 1 * chunk_size) by lia.
           rewrite Z.div_add; [|lia].
           assert (0 <= (num_samples - (s + chunk_size) + chunk_size - 1)
                        / chunk_size) by (apply Z.div_pos; lia).
           lia.
        -- replace end1 with num_samples by lia.
           replace (num_samples - num_samples + chunk_size - 1)
             with (chunk_size - 1) by lia.
           rewrite Z.div_small; [|lia].
           replace ((num_samples - s + chunk_size - 1) / chunk_size) with 1;
             [done|].
           apply (Z.div_unique _ _ 1 (num_samples - s - 1)); lia.
      * intros [|k] c Hc; simpl in Hc.
        -- injection Hc as <-. simpl. lia.
        -- destruct (Hk k c Hc) as [Hst Hen].
           destruct (Z.le_gt_cases (s + chunk_size) num_samples)
             as [Hfull|Hpart].
           ++ rewrite Hst, Hen. replace end1 with (s + chunk_size) by lia.
              lia.
           ++ (* the chunk before was the last one *)
              exfalso. assert (Hnil : length rest = 0%nat).
              { rewrite Hlen. replace end1 with num_samples by lia.
                replace (num_samples - num_samples + chunk_size - 1)
                  with (chunk_size - 1) by lia.
                by rewrite Z.div_small; [|lia]. }
              apply lookup_lt_Some in Hc. lia.
    + exists []. rewrite app_nil_r. split; [done|]. split; [|done]. simpl.
      assert ((num_samples - s + chunk_size - 1) / chunk_size <= 0); [|lia].
      apply Z.lt_succ_r, Z.div_lt_upper_bound; lia.
Qed.

(** X4: For a positive chunk size the plan has [ceil(num_samples / chunk_size)]
    chunks, and chunk number [k] is
    [[k * chunk_size, min((k + 1) * chunk_size, num_samples))]: every chunk
    but the last has exactly [chunk_size] samples. *)
Theorem get_time_chunks_closed_form (num_samples chunk_size padding : Z) :
  0 < chunk_size ->
  exists chunks,
    (forall fuel, (Z.to_nat num_samples <= fuel)%nat ->
       get_time_chunks fuel num_samples chunk_size padding = Some chunks) /\
    length chunks = Z.to_nat ((num_samples + chunk_size - 1) / chunk_size) /\
    forall k c, chunks !! k = Some c ->
      start c = Z.of_nat k * chunk_size /\
      end_ c = Z.min ((Z.of_nat k + 1) * chunk_size) num_samples /\
      ((S k < length chunks)%nat -> end_ c - start c = chunk_size).
Proof.
  intros Hcs.
  destruct (get_time_chunks_loop_closed_form num_samples chunk_size padding
              Hcs (Z.to_nat num_samples) 0 [])
    as (chunks & Hrun & Hlen & Hk); [lia|].
  rewrite Z.sub_0_r in Hlen. simpl in Hrun.
  exists chunks. split; [|split; [done|]].
  - intros fuel Hfuel. unfold get_time_chunks.
    by apply (get_time_chunks_loop_fuel (Z.to_nat num_samples)).
  - intros k c Hc. destruct (Hk k c Hc) as [Hst Hen].
    split; [lia|]. split; [lia|]. intros Hnext.
    destruct (lookup_lt_is_Some_2 chunks (S k) Hnext) as [c' Hc'].
    destruct (Hk (S k) c' Hc') as [Hst' Hen'].
    assert (Hlt : start c' < num_samples).
    { assert (Hpos : 0 < (num_samples + chunk_size - 1) / chunk_size) by lia.
      assert (HS : Z.of_nat (S k)
                   < (num_samples + chunk_size - 1) / chunk_size) by lia.
      assert (Hm := Z.mul_div_le (num_samples + chunk_size - 1) chunk_size Hcs).
      nia. }
    lia.
Qed.

Lemma get_time_chunks_closed_form_witness :
  0 < 4 /\
  exists chunks,
    get_time_chunks 10 10 4 1 = Some chunks /\ length chunks = 3%nat.
Proof.
  split; [lia|].
  destruct (get_time_chunks_closed_form 10 4 1) as (chunks & Hrun & Hlen & _);
    [lia|].
  exists chunks. split; [apply Hrun; simpl; lia|exact Hlen].
Defined.

Lemma tiles_last a b chunks c :
  tiles a b chunks -> last chunks = Some c -> end_ c = b.
Proof.
  revert a. induction chunks as [|c0 chunks IH]; intros a Ht Hl; [done|].
  destruct Ht as (Hs & Hlt & Hle & Ht).
  destruct chunks as [|c1 chunks].
  - injection Hl as <-. simpl in Ht. lia.
  - by apply (IH (end_ c0)).
Qed.

(** X5: With a padding that is not negative no chunk has a negative padding or
    more than [padding]; the frames fetched for a chunk,
    [[start - padding_left, end_ + padding_right)], lie inside the recording
    and are [total_size] many; a chunk at least [padding] away from an end of
    the recording has the full padding on that side; the first chunk has no
    left padding and the last chunk no right padding. *)
Theorem get_time_chunks_padding (num_samples chunk_size padding : Z) :
  0 < chunk_size ->
  0 <= padding ->
  exists chunks,
    (forall fuel, (Z.to_nat num_samples <= fuel)%nat ->
       get_time_chunks fuel num_samples chunk_size padding = Some chunks) /\
    Forall (fun c =>
      0 <= padding_left c <= padding /\
      0 <= padding_right c <= padding /\
      0 <= start c - padding_left c /\
      end_ c + padding_right c <= num_samples /\
      total_size c = (end_ c + padding_right c) - (start c - padding_left c) /\
      (padding <= start c -> padding_left c = padding) /\
      (end_ c + padding <= num_samples -> padding_right c = padding)) chunks /\
    (forall c, head chunks = Some c -> padding_left c = 0) /\
    (forall c, last chunks = Some c -> padding_right c = 0).
Proof.
  intros Hcs Hpad.
  destruct (get_time_chunks_returns_tiling num_samples chunk_size padding Hcs)
    as (chunks & Hrun & Ht & Hclip).
  exists chunks. split; [done|]. rewrite Forall_forall in Hclip. split_and!.
  - apply Forall_forall. intros c Hc.
    destruct (Hclip c Hc) as (Hl & Hr & Hl' & Hr' & Htot).
    destruct (tiles_lower _ _ _ c Ht Hc) as [H0 HN]. lia.
  - intros c Hc. destruct chunks as [|c0 chunks]; [done|].
    injection Hc as ->. destruct Ht as (Hs & _).
    destruct (Hclip c) as (Hl & _); [by left|]. lia.
  - intros c Hc. pose proof (tiles_last _ _ _ _ Ht Hc) as Hend.
    destruct (Hclip c) as (_ & Hr & _).
    { apply last_Some in Hc as [l' ->]. apply elem_of_app. right. by left. }
    lia.
Qed.

Lemma get_time_chunks_padding_witness :
  0 < 4 /\ 0 <= 1 /\
  exists chunks,
    get_time_chunks 10 10 4 1 = Some chunks /\
    forall c, head chunks = Some c -> padding_left c = 0.
Proof.
  split; [lia|]. split; [lia|].
  destruct (get_time_chunks_padding 10 4 1) as (chunks & Hrun & _ & Hhd & _);
    [lia|lia|].
  exists chunks. split; [apply Hrun; simpl; lia|exact Hhd].
Defined.

End ChunkPlannerFacts.

(** ** Properties of the array operations *)

Module NpFacts.
Import Np.

Lemma foldl_max_ge (xs : list Z) : forall x, x <= foldl Z.max x xs.
Proof.
  induction xs as [|y xs IH]; intros x; simpl; [lia|].
  specialize (IH (Z.max x y)). lia.
Qed.

Lemma foldl_max_upper (xs : list Z) : forall x y,
  y ∈ xs -> y <= foldl Z.max x xs.
Proof.
  induction xs as [|z xs IH]; intros x y Hy; simpl.
  { by apply elem_of_nil in Hy. }
  apply elem_of_cons in Hy as [->|Hy]; [|by apply IH].
  pose proof (foldl_max_ge xs (Z.max x z)). lia.
Qed.

Lemma foldl_max_elem (xs : list Z) : forall x,
  foldl Z.max x xs = x \/ foldl Z.max x xs ∈ xs.
Proof.
  induction xs as [|z xs IH]; intros x; simpl; [by left|].
  destruct (IH (Z.max x z)) as [Heq|Hin].
  - rewrite Heq. destruct (Z.max_spec x z) as [[_ ->]|[_ ->]];
      [right; by left|by left].
  - right. by right.
Qed.

(** The maximum is an element and bounds every element. *)
Lemma np_max_spec (xs : list Z) (m : Z) :
  np_max xs = Ok m <-> m ∈ xs /\ Forall (fun x => x <= m) xs.
Proof.
  destruct xs as [|x xs]; simpl.
  { split; [done|]. intros [H _]. by apply elem_of_nil in H. }
  split.
  - intros [= <-]. split.
    + destruct (foldl_max_elem xs x) as [->|Hin]; [by left|by right].
    + constructor; [apply foldl_max_ge|].
      apply Forall_forall. intros y Hy. by apply foldl_max_upper.
  - intros [Hin Hall]. f_equal.
    apply Forall_cons in Hall as [Hx Hall]. rewrite Forall_forall in Hall.
    pose proof (foldl_max_ge xs x).
    destruct (foldl_max_elem xs x) as [Heq|Hin']; [|].
    + apply elem_of_cons in Hin as [->|Hin]; [done|].
      pose proof (foldl_max_upper xs x m Hin). lia.
    + specialize (Hall _ Hin').
      apply elem_of_cons in Hin as [->|Hin]; [lia|].
      pose proof (foldl_max_upper xs x m Hin). lia.
Qed.

(** *** [np.roll] *)

Lemma length_roll {A} (shift : Z) (xs : list A) :
  length (roll shift xs) = length xs.
Proof.
  unfold roll. destruct xs as [|x xs]; [done|].
  set (l := x :: xs). set (k := (length l - _)%nat).
  rewrite length_app, length_drop, length_take. lia.
Qed.

(** Position [j] of the rolled array holds what stood at [(j - shift) mod n]. *)
Lemma roll_lookup {A} (shift : Z) (xs : list A) (j : nat) :
  (j < length xs)%nat ->
  roll shift xs !! j
  = xs !! Z.to_nat ((Z.of_nat j - shift) mod Z.of_nat (length xs)).
Proof.
  intros Hj. unfold roll. destruct xs as [|x xs]; [simpl in Hj; lia|].
  set (l := x :: xs) in *. set (n := length l) in *.
  assert (Hn : 0 < Z.of_nat n) by lia.
  pose proof (Z.mod_pos_bound shift (Z.of_nat n) Hn) as Hr.
  set (r := shift mod Z.of_nat n) in *.
  assert (Hmod : (Z.of_nat j - shift) mod Z.of_nat n
                 = (Z.of_nat j - r) mod Z.of_nat n).
  { unfold r. by rewrite Zminus_mod_idemp_r. }
  rewrite Hmod.
  destruct (decide (Z.of_nat j < r)) as [Hlt|Hge].
  - rewrite lookup_app_l; [|rewrite length_drop; lia].
    rewrite lookup_drop. f_equal.
    rewrite <- (Z_mod_plus_full _ 1), Z.mod_small; lia.
  - rewrite lookup_app_r; [|rewrite length_drop; lia].
    rewrite length_drop, lookup_take_lt; [|lia].
    f_equal. rewrite Z.mod_small; lia.
Qed.

Lemma roll_roll {A} (a b : Z) (xs : list A) :
  roll a (roll b xs) = roll (a + b) xs.
Proof.
  apply list_eq. intros j.
  destruct (decide (j < length xs)%nat) as [Hj|Hj].
  - rewrite roll_lookup; [|by rewrite length_roll].
    rewrite length_roll.
    assert (Hn : 0 < Z.of_nat (length xs)) by lia.
    pose proof (Z.mod_pos_bound (Z.of_nat j - a) _ Hn) as Hr.
    rewrite roll_lookup; [|lia]. rewrite roll_lookup; [|done].
    f_equal. f_equal. rewrite Z2Nat.id; [|lia].
    rewrite Zminus_mod_idemp_l. f_equal. lia.
  - rewrite !lookup_ge_None_2; [done| |]; rewrite !length_roll; lia.
Qed.

Lemma roll_0 {A} (xs : list A) : roll 0 xs = xs.
Proof.
  apply list_eq. intros j.
  destruct (decide (j < length xs)%nat) as [Hj|Hj].
  - rewrite roll_lookup; [|done]. f_equal.
    rewrite Z.sub_0_r, Z.mod_small; lia.
  - rewrite !lookup_ge_None_2; [done| |]; rewrite ?length_roll; lia.
Qed.

End NpFacts.

(** ** Properties of [test_merge] *)

Module MergeTesterFacts.
Import Np NpFacts MergeTester.

(** C7 (as stated) fails: [test_merge] has no guard of its own.  On two
    batches of one snippet each, either the reduction step raises and the
    exception leaves [test_merge], or it returns and the answer is the
    clustering's, here [true]. *)
Lemma test_merge_few_samples :
  test_merge pca_strict iso_single one_snippet one_snippet = Raise ValueError /\
  test_merge pca_capped iso_single one_snippet one_snippet = Ok true /\
  ~ few_samples_give_false pca_strict iso_single /\
  ~ few_samples_give_false pca_capped iso_single.
Proof.
  split; [reflexivity|]. split; [reflexivity|].
  split; intros H; specialize (H one_snippet one_snippet);
    (discriminate H; simpl; lia).
Qed.

(** C7 (amended): [test_merge] checks no sample count and handles no error.
    For all inputs, an exception of the reduction step, of the clustering, or
    of the maximum over an empty label array leaves [test_merge] unchanged;
    otherwise the answer is [true] exactly when the largest label is 1. *)
Theorem test_merge_single_cluster
    (pca : list (list Q) -> Z -> result (list (list Q)))
    (iso : list (list Q) -> result (list Z))
    (snippets1 snippets2 : list (list (list Q))) :
  match pca (reshape_rows snippets1 ++ reshape_rows snippets2) 12 with
  | Raise e => test_merge pca iso snippets1 snippets2 = Raise e
  | Ok features0 =>
      match iso (transpose features0) with
      | Raise e => test_merge pca iso snippets1 snippets2 = Raise e
      | Ok [] => test_merge pca iso snippets1 snippets2 = Raise ValueError
      | Ok labels0 =>
          exists b, test_merge pca iso snippets1 snippets2 = Ok b /\
            (b = true <-> 1 ∈ labels0 /\ Forall (fun l => l <= 1) labels0)
      end
  end.
Proof.
  unfold test_merge. simpl.
  destruct (pca _ 12) as [features0|e]; simpl; [|done].
  destruct (iso _) as [labels0|e]; simpl; [|done].
  destruct labels0 as [|l labels0]; [done|].
  destruct (np_max (l :: labels0)) as [m|e] eqn:Hm; [|done].
  simpl. exists (m =? 1). split; [done|].
  rewrite Z.eqb_eq. split.
  - intros ->. by apply np_max_spec.
  - intros Hspec. apply np_max_spec in Hspec. congruence.
Qed.

(** *** [offset_snippets] *)

(** X6: [offset_snippets] keeps the number of snippets and the number of time
    samples of each, and moves the sample at time [t] of every snippet to time
    [(t + offset) mod T]. *)
Theorem offset_snippets_shifts_time
    (snippets : list (list (list Q))) (offset : Z) :
  length (offset_snippets snippets offset) = length snippets /\
  forall l s, snippets !! l = Some s ->
    exists s', offset_snippets snippets offset !! l = Some s' /\
      length s' = length s /\
      forall t, (t < length s)%nat ->
        s' !! Z.to_nat ((Z.of_nat t + offset) mod Z.of_nat (length s))
        = s !! t.
Proof.
  unfold offset_snippets. split; [by rewrite length_map|].
  intros l s Hs. exists (roll offset s).
  split; [by rewrite list_lookup_fmap, Hs|].
  split; [apply length_roll|].
  intros t Ht.
  assert (Hn : 0 < Z.of_nat (length s)) by lia.
  pose proof (Z.mod_pos_bound (Z.of_nat t + offset) _ Hn) as Hr.
  rewrite roll_lookup; [|lia]. f_equal.
  rewrite Z2Nat.id; [|lia].
  rewrite Zminus_mod_idemp_l.
  replace (Z.of_nat t + offset - offset) with (Z.of_nat t) by lia.
  rewrite Z.mod_small; lia.
Qed.

(** X7: Offsets add up: shifting by [a] and then by [b] is shifting by [a + b];
    in particular shifting back by [- a] restores the snippets. *)
Theorem offset_snippets_compose (snippets : list (list (list Q))) (a b : Z) :
  offset_snippets (offset_snippets snippets a) b
  = offset_snippets snippets (a + b) /\
  offset_snippets (offset_snippets snippets a) (- a) = snippets.
Proof.
  unfold offset_snippets.
  assert (Hc : forall x y,
    map (roll y) (map (roll x) snippets) = map (roll (x + y)) snippets).
  { intros x y. rewrite map_map. apply map_ext. intros s.
    rewrite roll_roll. f_equal. lia. }
  split; [apply Hc|].
  rewrite Hc, Z.add_opp_diag_r.
  rewrite <- (map_id snippets) at 2. apply map_ext. intros s. apply roll_0.
Qed.

End MergeTesterFacts.

(** ** Properties of [pairwise_merge_step] *)

Module PairwiseMergeFacts.
Import Np NpFacts MergeTester DuplicateResolver DuplicateResolverFacts
  PairwiseMerge.

Lemma apply_step_map merges events u :
  keys_consistent merges ->
  apply_step merges events u = Ok (map (fun e => step_event merges e u) events).
Proof.
  intros Hk. unfold apply_step, step_event, apply_merge.
  destruct (merges !! u) as [mm|] eqn:Hm.
  - rewrite (Hk _ _ Hm). rewrite Z.eqb_refl. reflexivity.
  - simpl. by rewrite map_id.
Qed.

Lemma for_each_apply_step merges : forall us events,
  keys_consistent merges ->
  for_each (apply_step merges) events us = Ok (map (track merges us) events).
Proof.
  induction us as [|u us IH]; intros events Hk; simpl.
  - unfold track. simpl. by rewrite map_id.
  - rewrite apply_step_map; [|done]. simpl. rewrite IH; [|done].
    by rewrite map_map.
Qed.

Lemma track_app merges us1 us2 e :
  track merges (us1 ++ us2) e = track merges us2 (track merges us1 e).
Proof. unfold track. by rewrite foldl_app. Qed.

Lemma track_unchanged merges : forall us e,
  keys_consistent merges ->
  (forall u, u ∈ us -> u <> label e \/ merges !! u = None) ->
  track merges us e = e.
Proof.
  induction us as [|u us IH]; intros e Hk Hus; [done|].
  unfold track. simpl. fold (track merges us).
  assert (Hstep : step_event merges e u = e).
  { unfold step_event. destruct (merges !! u) as [mm|] eqn:Hm; [|done].
    destruct (Hus u) as [Hne|Hnone]; [by left| |congruence].
    rewrite (Hk _ _ Hm). destruct (Z.eqb_spec (label e) u); [congruence|done]. }
  rewrite Hstep. apply IH; [done|]. intros u' Hu'. apply Hus. by right.
Qed.

Lemma track_cons merges u us e :
  track merges (u :: us) e = track merges us (step_event merges e u).
Proof. done. Qed.

Lemma step_event_hit merges e u mm :
  merges !! u = Some mm -> unit_id1 mm = label e ->
  step_event merges e u = Event (time e + offset mm) (unit_id2 mm).
Proof.
  intros Hm Hl. unfold step_event. rewrite Hm, Hl. by rewrite Z.eqb_refl.
Qed.

Lemma step_event_miss merges e u :
  keys_consistent merges -> u <> label e -> step_event merges e u = e.
Proof.
  intros Hk Hne. unfold step_event.
  destruct (merges !! u) as [mm|] eqn:Hm; [|done].
  rewrite (Hk _ _ Hm). destruct (Z.eqb_spec (label e) u); [congruence|done].
Qed.

Lemma apply_merges_track merges unit_ids events :
  keys_consistent merges ->
  apply_merges merges unit_ids events
    = Ok (map (track merges (reverse unit_ids)) events).
Proof. intros Hk. unfold apply_merges. by apply for_each_apply_step. Qed.

Lemma chain2_keys_consistent : keys_consistent chain2.
Proof.
  intros u mm. unfold chain2.
  rewrite !lookup_insert. repeat case_decide; naive_solver.
Qed.




(** *** The pair scan as one pass over the pairs in scan order *)

Lemma for_each_app {S I} (body : S -> I -> result S) : forall l1 l2 s,
  for_each body s (l1 ++ l2) = s' ← for_each body s l1; for_each body s' l2.
Proof.
  induction l1 as [|i l1 IH]; intros l2 s; simpl; [done|].
  destruct (body s i) as [s'|e]; simpl; [apply IH|done].
Qed.

Lemma for_each_fmap {S I J} (body : S -> J -> result S) (f : I -> J) :
  forall l s, for_each body s (f <$> l) = for_each (fun s i => body s (f i)) s l.
Proof.
  induction l as [|i l IH]; intros s; simpl; [done|].
  destruct (body s (f i)) as [s'|e]; simpl; [apply IH|done].
Qed.

Lemma for_each_bind {S I J} (body : S -> J -> result S) (f : I -> list J) :
  forall l s,
    for_each body s (l ≫= f)
    = for_each (fun s i => for_each body s (f i)) s l.
Proof.
  induction l as [|i l IH]; intros s; simpl; [done|].
  rewrite for_each_app.
  destruct (for_each body s (f i)) as [s'|e]; simpl; [apply IH|done].
Qed.

Lemma pair_order_spec K i1 i2 :
  (i1, i2) ∈ pair_order K <-> (i2 < i1 < K)%nat.
Proof.
  unfold pair_order. rewrite list_elem_of_bind. split.
  - intros (j & Hin & Hj). apply list_elem_of_fmap in Hin as (k & [= -> ->] & Hk).
    rewrite elem_of_reverse in Hk. apply elem_of_seq in Hk, Hj. lia.
  - intros H. exists i1. split.
    + apply list_elem_of_fmap. exists i2. split; [done|].
      rewrite elem_of_reverse. apply elem_of_seq. lia.
    + apply elem_of_seq. lia.
Qed.

Section ScanFacts.

Variable compute_pca_features : list (list Q) -> Z -> result (list (list Q)).
Variable isosplit6 : list (list Q) -> result (list Z).
Variable snippets : list (list (list Q)).
Variable labels : list Z.
Variable unit_ids : list Z.
Variable tables : peak_tables.

Local Abbreviation is_candidate := (is_candidate tables).
Local Abbreviation run_test_merge :=
  (run_test_merge compute_pca_features isosplit6 snippets labels unit_ids tables).
Local Abbreviation scan_pair :=
  (scan_pair compute_pca_features isosplit6 snippets labels unit_ids tables).
Local Abbreviation scan_pairs :=
  (scan_pairs compute_pca_features isosplit6 snippets labels unit_ids tables).
Local Abbreviation found :=
  (found compute_pca_features isosplit6 snippets labels unit_ids tables).
Local Abbreviation record_of := (record_of unit_ids tables).
Local Abbreviation record_pair :=
  (record_pair compute_pca_features isosplit6 snippets labels unit_ids tables).

Lemma scan_pairs_flat K :
  scan_pairs K
  = for_each (fun s p => scan_pair p.1 s p.2) (ScanState ∅ []) (pair_order K).
Proof.
  unfold PairwiseMerge.scan_pairs, pair_order.
  rewrite for_each_bind.
  generalize (ScanState ∅ []). induction (seq 0 K) as [|i1 l IH]; intros s.
  - done.
  - simpl. rewrite for_each_fmap. simpl.
    destruct (for_each _ s (reverse (seq 0 i1))) as [s'|e]; simpl; [apply IH|done].
Qed.

(** A scan that returns has called [test_merge] on exactly the candidates
    among the pairs visited, and has written the record of every pair found,
    in visiting order. *)
Lemma for_each_scan_pair : forall l s s',
  for_each (fun s p => scan_pair p.1 s p.2) s l = Ok s' ->
  tested s' = tested s ++ filter (fun p => is_candidate p.1 p.2 = true) l /\
  merges s' = foldl record_pair (merges s) l.
Proof.
  induction l as [|p l IH]; intros s s' Hrun; simpl in Hrun.
  - injection Hrun as <-. by rewrite app_nil_r.
  - destruct p as [i1 i2]. simpl in Hrun.
    destruct (scan_pair i1 s i2) as [s1|e] eqn:Hp; [|done].
    simpl in Hrun. destruct (IH _ _ Hrun) as [Ht Hm].
    rewrite Ht, Hm. clear IH Hrun Ht Hm.
    assert (Hs1 : merges s1 = record_pair (merges s) (i1, i2) /\
                  tested s1 = tested s ++
                    (if is_candidate i1 i2 then [(i1, i2)] else [])).
    { unfold PairwiseMerge.scan_pair in Hp. unfold record_pair, found. simpl.
      destruct (PairwiseMerge.is_candidate tables i1 i2); simpl.
      - destruct (PairwiseMerge.run_test_merge _ _ _ _ _ _ i1 i2)
          as [[|]|e]; simpl in Hp; [| |done]; by injection Hp as <-.
      - injection Hp as <-. by rewrite app_nil_r. }
    destruct Hs1 as [-> ->]. simpl. split; [|done].
    rewrite filter_cons. simpl.
    destruct (PairwiseMerge.is_candidate tables i1 i2); simpl.
    + by rewrite <- app_assoc.
    + by rewrite app_nil_r.
Qed.

Lemma foldl_record_pair_origin : forall l m u mm,
  foldl record_pair m l !! u = Some mm ->
  m !! u = Some mm \/
  exists p, p ∈ l /\ found p = true /\ u = unit_ids !!! p.1 /\ mm = record_of p.
Proof.
  induction l as [|q l IH]; intros m u mm Hl; simpl in Hl; [by left|].
  destruct (IH _ _ _ Hl) as [Hq|(p & Hp & ?)].
  - unfold record_pair in Hq. destruct (found q) eqn:Hf; [|by left].
    rewrite lookup_insert in Hq. case_decide; [|by left].
    right. exists q. simplify_eq. repeat split; [by left|done].
  - right. exists p. split; [by right|done].
Qed.

Lemma foldl_record_pair_other : forall l m u,
  (forall q, q ∈ l -> found q = true -> unit_ids !!! q.1 <> u) ->
  foldl record_pair m l !! u = m !! u.
Proof.
  induction l as [|q l IH]; intros m u Hl; simpl; [done|].
  rewrite IH; [|intros q' Hq'; apply Hl; by right].
  unfold record_pair. destruct (found q) eqn:Hf; [|done].
  apply lookup_insert_ne. apply Hl; [by left|done].
Qed.

Lemma foldl_record_pair_last l1 l2 p m :
  found p = true ->
  (forall q, q ∈ l2 -> found q = true ->
     unit_ids !!! q.1 <> unit_ids !!! p.1) ->
  foldl record_pair m (l1 ++ p :: l2) !! (unit_ids !!! p.1)
    = Some (record_of p).
Proof.
  intros Hf Hl2. rewrite foldl_app. simpl.
  rewrite foldl_record_pair_other; [|done].
  unfold record_pair at 1. rewrite Hf. apply lookup_insert_eq.
Qed.

End ScanFacts.

Lemma pair_order_split K i1 i2 :
  (i2 < i1 < K)%nat ->
  exists l1 l2,
    pair_order K = l1 ++ (i1, i2) :: l2 /\
    (forall q, q ∈ l1 ->
       (q.1 = i1 /\ i2 < q.2 < i1)%nat \/ (q.2 < q.1 < i1)%nat) /\
    (forall q, q ∈ l2 ->
       (q.1 = i1 /\ q.2 < i2)%nat \/ (i1 < q.1 < K /\ q.2 < q.1)%nat).
Proof.
  intros H. unfold pair_order.
  assert (HK : seq 0 K = seq 0 i1 ++ i1 :: seq (S i1) (K - S i1)).
  { replace K with (i1 + S (K - S i1))%nat at 1 by lia.
    rewrite seq_app. done. }
  assert (Hi : reverse (seq 0 i1)
               = reverse (seq (S i2) (i1 - S i2)) ++ i2 :: reverse (seq 0 i2)).
  { replace i1 with (i2 + S (i1 - S i2))%nat at 1 by lia.
    rewrite seq_app. simpl. rewrite reverse_app, reverse_cons.
    by rewrite <- app_assoc. }
  rewrite HK, bind_app. simpl. rewrite Hi, fmap_app. simpl.
  rewrite <- !app_assoc. simpl.
  eexists _, _. rewrite app_assoc. split; [reflexivity|]. split.
  - intros [a b] Hq. simpl. apply elem_of_app in Hq as [Hq|Hq].
    + right. change (seq 0 i1 ≫= _) with (pair_order i1) in Hq.
      apply pair_order_spec in Hq. lia.
    + left. apply list_elem_of_fmap in Hq as (k & [= -> ->] & Hk).
      rewrite elem_of_reverse in Hk. apply elem_of_seq in Hk. lia.
  - intros [a b] Hq. simpl. apply elem_of_app in Hq as [Hq|Hq].
    + left. apply list_elem_of_fmap in Hq as (k & [= -> ->] & Hk).
      rewrite elem_of_reverse in Hk. apply elem_of_seq in Hk. lia.
    + right. apply list_elem_of_bind in Hq as (j & Hin & Hj).
      apply list_elem_of_fmap in Hin as (k & [= -> ->] & Hk).
      rewrite elem_of_reverse in Hk. apply elem_of_seq in Hk, Hj. lia.
Qed.

(** *** Which record the scan retains *)

Lemma NoDup_123 : NoDup [1; 2; 3].
Proof. apply NoDup_ListNoDup. repeat constructor; simpl; lia. Qed.

Lemma scan3_runs :
  exists s,
    candidate_scan pca_capped iso_single templates3 templates3 [1; 2; 3] 1
      [1; 2; 3] = Ok s /\
    tested s = [(1, 0); (2, 1); (2, 0)]%nat /\
    merges s !! 3 = Some (MergeRecord 3 1 0).
Proof. eexists. split; [vm_compute; reflexivity|]. split; reflexivity. Qed.

(** C1 (as stated) fails: every pair of the three units passes, the pairs
    with source unit 3 are found in the order [(2, 1)], [(2, 0)], and the
    record retained for unit 3 is that of the pair found last, target unit 1,
    not that of the pair found first, target unit 2. *)
Lemma candidate_scan_later_pair_overwrites :
  (exists s,
     candidate_scan pca_capped iso_single templates3 templates3 [1; 2; 3] 1
       [1; 2; 3] = Ok s /\
     tested s = [(1, 0); (2, 1); (2, 0)]%nat /\
     merges s !! 3 = Some (MergeRecord 3 1 0)) /\
  ~ first_found_wins pca_capped iso_single templates3 templates3 [1; 2; 3] 1
      [1; 2; 3].
Proof.
  split; [exact scan3_runs|].
  destruct scan3_runs as (s & Hs & _ & Hm). intros Hclaim.
  assert (Hc : merges s !! ([1; 2; 3] !!! 2%nat)
               = Some (record_of [1; 2; 3] tables3 (2, 1)%nat)).
  { apply (Hclaim s tables3 Hs eq_refl 2%nat 1%nat).
    - simpl. lia.
    - reflexivity.
    - intros j Hj. lia. }
  change ([1; 2; 3] !!! 2%nat) with 3 in Hc. rewrite Hm in Hc.
  discriminate Hc.
Qed.

(** C1 (amended): [merges] holds at most one record per source unit id, each
    stored under its own source id and written for a pair that passed; when
    several pairs with the same source pass, the record retained is that of
    the pair found last in scan order, the one with the smallest [i2]: each
    later passing pair overwrites the record before it.  A source with no
    passing pair has no record. *)
Theorem candidate_scan_last_found_wins
    (pca : list (list Q) -> Z -> result (list (list Q)))
    (iso : list (list Q) -> result (list Z))
    (snippets templates : list (list (list Q))) (labels : list Z)
    (detect_sign : Z) (unit_ids : list Z) (s : scan_state) :
  candidate_scan pca iso snippets templates labels detect_sign unit_ids
    = Ok s ->
  NoDup unit_ids ->
  length unit_ids = length templates ->
  exists tables,
    compute_peak_tables (rectify detect_sign templates) = Ok tables /\
    (forall u mm, merges s !! u = Some mm ->
       unit_id1 mm = u /\
       exists i1 i2, (i2 < i1 < length templates)%nat /\
         found pca iso snippets labels unit_ids tables (i1, i2) = true /\
         u = unit_ids !!! i1 /\
         mm = record_of unit_ids tables (i1, i2)) /\
    (forall i1 i2, (i2 < i1 < length templates)%nat ->
       found pca iso snippets labels unit_ids tables (i1, i2) = true ->
       (forall j, (j < i2)%nat ->
          found pca iso snippets labels unit_ids tables (i1, j) = false) ->
       merges s !! (unit_ids !!! i1)
         = Some (record_of unit_ids tables (i1, i2))) /\
    (forall i1, (i1 < length templates)%nat ->
       (forall j, (j < i1)%nat ->
          found pca iso snippets labels unit_ids tables (i1, j) = false) ->
       merges s !! (unit_ids !!! i1) = None).
Proof.
  intros Hrun Hnd Hlen. unfold candidate_scan in Hrun.
  destruct (compute_peak_tables _) as [tables|e] eqn:Htab; [|done].
  simpl in Hrun. rewrite scan_pairs_flat in Hrun.
  apply for_each_scan_pair in Hrun as [_ Hm]. simpl in Hm.
  exists tables. split; [done|].
  assert (Hkey : forall i j, (i < length templates)%nat ->
            (j < length templates)%nat ->
            unit_ids !!! i = unit_ids !!! j -> i = j).
  { intros i j Hi Hj Heq.
    apply (NoDup_lookup unit_ids i j (unit_ids !!! i)); [done| |].
    - apply list_lookup_lookup_total_lt. lia.
    - rewrite Heq. apply list_lookup_lookup_total_lt. lia. }
  split_and!.
  - intros u mm Hu. rewrite Hm in Hu.
    apply foldl_record_pair_origin in Hu
      as [Hu|([i1 i2] & Hp & Hf & -> & ->)]; [done|].
    split; [done|]. apply pair_order_spec in Hp. by exists i1, i2.
  - intros i1 i2 Hi Hf Hlast. rewrite Hm.
    destruct (pair_order_split _ _ _ Hi) as (l1 & l2 & -> & _ & Hl2).
    apply (foldl_record_pair_last pca iso snippets labels unit_ids tables
             l1 l2 (i1, i2)); [done|].
    intros [a b] Hq Hfq Heq. simpl in *.
    destruct (Hl2 _ Hq) as [[Ha Hb]|[Ha Hb]]; simpl in *.
    + subst a. rewrite Hlast in Hfq; [done|lia].
    + apply Hkey in Heq; lia.
  - intros i1 Hi Hnone. rewrite Hm.
    rewrite foldl_record_pair_other; [done|].
    intros [a b] Hq Hfq Heq. simpl in *.
    apply pair_order_spec in Hq. apply Hkey in Heq; [|lia|lia]. subst a.
    rewrite Hnone in Hfq; [done|lia].
Qed.

Lemma candidate_scan_last_found_wins_witness :
  exists s,
    candidate_scan pca_capped iso_single templates3 templates3 [1; 2; 3] 1
      [1; 2; 3] = Ok s /\
    merges s !! 3 = Some (record_of [1; 2; 3] tables3 (2, 0)%nat).
Proof.
  destruct scan3_runs as (s & Hs & _ & _).
  exists s. split; [exact Hs|].
  destruct (candidate_scan_last_found_wins pca_capped iso_single templates3
              templates3 [1; 2; 3] 1 [1; 2; 3] s Hs)
    as (tables & Htab & _ & Hlast & _).
  - exact NoDup_123.
  - reflexivity.
  - injection Htab as <-.
    apply (Hlast 2%nat 0%nat); [simpl; lia|reflexivity|intros j Hj; lia].
Defined.

(** *** The scan followed by the application *)

Lemma candidate_scan_keys_consistent
    (pca : list (list Q) -> Z -> result (list (list Q)))
    (iso : list (list Q) -> result (list Z))
    (snippets templates : list (list (list Q))) (labels : list Z)
    (detect_sign : Z) (unit_ids : list Z) (s : scan_state) :
  candidate_scan pca iso snippets templates labels detect_sign unit_ids
    = Ok s ->
  keys_consistent (merges s).
Proof.
  intros Hrun. unfold candidate_scan in Hrun.
  destruct (compute_peak_tables _) as [tables|e]; [|done].
  simpl in Hrun. rewrite scan_pairs_flat in Hrun.
  apply for_each_scan_pair in Hrun as [_ Hm]. simpl in Hm.
  intros u mm Hu. rewrite Hm in Hu.
  apply foldl_record_pair_origin in Hu as [Hu|(p & _ & _ & -> & ->)]; done.
Qed.

Lemma scan_chain_runs :
  candidate_scan pca_capped iso_single templates_chain templates_chain
    [1; 2; 3] 1 [1; 2; 3]
  = Ok (ScanState merges_chain [(1, 0); (2, 1)]%nat).
Proof. reflexivity. Qed.

(** C3 (as stated) fails: for three units of which 1 and 2, and 2 and 3, but
    not 1 and 3 are merge candidates, the scan writes the records [3 -> 2]
    and [2 -> 1].  The application meets the record of unit 3 while its
    target 2 still has its own record pending; it raises nothing and applies
    both records. *)
Lemma apply_merges_pending_target_applied :
  candidate_scan pca_capped iso_single templates_chain templates_chain
    [1; 2; 3] 1 [1; 2; 3]
    = Ok (ScanState merges_chain [(1, 0); (2, 1)]%nat) /\
  pending_target merges_chain [1; 2; 3] /\
  apply_merges merges_chain [1; 2; 3]
    [Event 100 3; Event 200 2; Event 300 1]
    = Ok [Event 100 1; Event 199 1; Event 300 1] /\
  ~ pending_target_is_fatal merges_chain [1; 2; 3]
      [Event 100 3; Event 200 2; Event 300 1].
Proof.
  assert (Hpend : pending_target merges_chain [1; 2; 3]).
  { exists 3, (MergeRecord 3 2 1). split; [set_solver|]. split; [done|].
    by exists (MergeRecord 2 1 (-1)). }
  assert (Hrun : apply_merges merges_chain [1; 2; 3]
                   [Event 100 3; Event 200 2; Event 300 1]
                 = Ok [Event 100 1; Event 199 1; Event 300 1])
    by reflexivity.
  split; [exact scan_chain_runs|]. split; [exact Hpend|].
  split; [exact Hrun|].
  intros Hclaim. destruct (Hclaim Hpend) as [e He].
  rewrite Hrun in He. discriminate He.
Qed.

(** C3 (amended): the application loop has one check only, the assertion
    that a record is stored under its own source id.  Every map that the
    scan builds satisfies it, so after a scan that returned the loop raises
    nothing, whether or not the target of a record has a record of its own;
    it applies to each event the records met in reverse [unit_ids] order. *)
Theorem apply_merges_never_fatal
    (pca : list (list Q) -> Z -> result (list (list Q)))
    (iso : list (list Q) -> result (list Z))
    (snippets templates : list (list (list Q))) (labels : list Z)
    (detect_sign : Z) (unit_ids : list Z) (s : scan_state)
    (events : list event) :
  candidate_scan pca iso snippets templates labels detect_sign unit_ids
    = Ok s ->
  keys_consistent (merges s) /\
  apply_merges (merges s) unit_ids events
    = Ok (map (track (merges s) (reverse unit_ids)) events).
Proof.
  intros Hrun. apply candidate_scan_keys_consistent in Hrun.
  split; [done|]. by apply apply_merges_track.
Qed.

Lemma apply_merges_never_fatal_witness :
  candidate_scan pca_capped iso_single templates_chain templates_chain
    [1; 2; 3] 1 [1; 2; 3]
    = Ok (ScanState merges_chain [(1, 0); (2, 1)]%nat) /\
  keys_consistent merges_chain /\
  apply_merges merges_chain [1; 2; 3] [Event 100 3]
    = Ok (map (track merges_chain (reverse [1; 2; 3])) [Event 100 3]).
Proof.
  split; [reflexivity|].
  apply (apply_merges_never_fatal pca_capped iso_single templates_chain
           templates_chain [1; 2; 3] 1 [1; 2; 3]
           (ScanState merges_chain [(1, 0); (2, 1)]%nat) [Event 100 3]).
  reflexivity.
Defined.

(** *** The tables hold the peaks and the dominant channels *)

Lemma Qgtb_lt x y : Qgtb x y = true <-> (y < x)%Q.
Proof.
  unfold Qgtb. rewrite negb_true_iff, <- not_true_iff_false, Qle_bool_iff.
  split; [apply Qnot_le_lt|apply Qlt_not_le].
Qed.

Lemma Qgtb_le x y : Qgtb x y = false <-> (x <= y)%Q.
Proof.
  unfold Qgtb. rewrite negb_false_iff. apply Qle_bool_iff.
Qed.

Lemma argmax_from_first_max : forall xs pre best besti,
  first_max pre besti best ->
  first_max (pre ++ xs)
    (argmax_from best besti (length pre) xs)
    (foldl (fun m y => if Qgtb y m then y else m) best xs).
Proof.
  induction xs as [|x xs IH]; intros pre best besti Hinv; simpl.
  { by rewrite app_nil_r. }
  destruct Hinv as (Hlk & Hall & Hfirst).
  assert (Hbi : (besti < length pre)%nat) by by eapply lookup_lt_Some.
  replace (pre ++ x :: xs) with ((pre ++ [x]) ++ xs)
    by (by rewrite <- app_assoc).
  replace (S (length pre)) with (length (pre ++ [x]))
    by (rewrite length_app; simpl; lia).
  destruct (Qgtb x best) eqn:Hx.
  - apply Qgtb_lt in Hx. apply IH. repeat split.
    + rewrite lookup_app_r; [|lia]. by rewrite Nat.sub_diag.
    + apply Forall_app. split.
      * eapply Forall_impl; [exact Hall|]. simpl. intros y Hy.
        apply Qlt_le_weak. by eapply Qle_lt_trans.
      * constructor; [apply Qle_refl|constructor].
    + intros t' y Ht' Hy. rewrite lookup_app_l in Hy; [|lia].
      rewrite Forall_forall in Hall.
      eapply Qle_lt_trans; [|exact Hx]. apply Hall.
      by eapply list_elem_of_lookup_2.
  - apply Qgtb_le in Hx. apply IH. repeat split.
    + rewrite lookup_app_l; [done|lia].
    + apply Forall_app. split; [done|]. by constructor.
    + intros t' y Ht' Hy. rewrite lookup_app_l in Hy; [|lia].
      by eapply Hfirst.
Qed.

Lemma first_max_unique xs t v t' v' :
  first_max xs t v -> first_max xs t' v' -> t = t' /\ v = v'.
Proof.
  intros (Hl & Ha & Hf) (Hl' & Ha' & Hf').
  rewrite Forall_forall in Ha, Ha'.
  assert (t = t') as ->.
  { destruct (Nat.lt_trichotomy t t') as [Hlt|[->|Hlt]]; [|done|].
    - specialize (Hf' _ _ Hlt Hl). specialize (Ha v').
      exfalso. apply (Qlt_irrefl v). eapply Qlt_le_trans; [exact Hf'|].
      apply Ha. by eapply list_elem_of_lookup_2.
    - specialize (Hf _ _ Hlt Hl'). specialize (Ha' v).
      exfalso. apply (Qlt_irrefl v'). eapply Qlt_le_trans; [exact Hf|].
      apply Ha'. by eapply list_elem_of_lookup_2. }
  split; [done|congruence].
Qed.

Lemma np_argmax_maxQ_spec xs :
  xs <> [] ->
  exists t v, np_argmax xs = Ok t /\ np_maxQ xs = Ok v /\ first_max xs t v.
Proof.
  destruct xs as [|x xs]; [done|]. intros _. simpl. eexists _, _.
  split; [done|]. split; [done|].
  apply (argmax_from_first_max xs [x] x 0%nat).
  repeat split; [repeat constructor; apply Qle_refl|].
  intros t' y Ht'. lia.
Qed.

Lemma np_argmax_Ok xs t : np_argmax xs = Ok t -> xs <> [].
Proof. by destruct xs. Qed.

Lemma np_maxQ_Ok xs v : np_maxQ xs = Ok v -> xs <> [].
Proof. by destruct xs. Qed.

(** [mapM] returns when every element does. *)
Lemma mapM_Ok {A B} (f : A -> result B) : forall l k,
  mapM f l = Ok k <-> Forall2 (fun x y => f x = Ok y) l k.
Proof.
  induction l as [|x l IH]; intros k; simpl.
  - split; [intros [= <-]; constructor|by inversion 1].
  - split.
    + destruct (f x) as [y|e] eqn:Hx; simpl; [|done].
      destruct (mapM f l) as [k'|e] eqn:Hl; simpl; [|done].
      intros [= <-]. constructor; [done|]. by apply IH.
    + inversion 1 as [|x' y l' k' Hx Hl]; subst.
      apply IH in Hl. by rewrite Hx, Hl.
Qed.

Lemma channel_nonempty (a : list (list Q)) m : a <> [] -> channel a m <> [].
Proof. by destruct a. Qed.

Lemma peak_exists (a : list (list Q)) m :
  a <> [] -> exists t v, peak_on_channel a m t v.
Proof.
  intros Ha. destruct (np_argmax_maxQ_spec (channel a m)) as (t & v & _ & _ & H);
    [by apply channel_nonempty|].
  by exists t, v.
Qed.

Lemma peak_unique (a : list (list Q)) m t v t' v' :
  peak_on_channel a m t v -> peak_on_channel a m t' v' -> t = t' /\ v = v'.
Proof. apply first_max_unique. Qed.

Lemma max_axis0_spec (a : list (list Q)) (vs : list Q) :
  max_axis0 a = Ok vs ->
  a <> [] /\ length vs = num_channels a /\
  forall m, (m < num_channels a)%nat ->
    exists t v, vs !! m = Some v /\ peak_on_channel a m t v.
Proof.
  intros H. assert (Ha : a <> []) by (by destruct a).
  assert (H' : mapM (fun m => np_maxQ (channel a m)) (seq 0 (num_channels a))
               = Ok vs) by (by destruct a).
  apply mapM_Ok in H'. split; [done|]. split.
  - apply Forall2_length in H'. by rewrite length_seq in H'.
  - intros m Hm.
    destruct (Forall2_lookup_l _ _ _ m m H') as (v & Hv & Hmax);
      [by apply lookup_seq_lt|].
    destruct (np_argmax_maxQ_spec (channel a m)) as (t & v' & _ & Hv' & Hfm);
      [by apply channel_nonempty|].
    exists t, v. split; [done|]. by assert (v = v') as -> by congruence.
Qed.

Lemma argmax_axis0_spec (a : list (list Q)) (ts : list nat) :
  argmax_axis0 a = Ok ts ->
  forall m, (m < num_channels a)%nat ->
    exists t v, ts !! m = Some t /\ peak_on_channel a m t v.
Proof.
  intros H. assert (Ha : a <> []) by (by destruct a).
  assert (H' : mapM (fun m => np_argmax (channel a m)) (seq 0 (num_channels a))
               = Ok ts) by (by destruct a).
  apply mapM_Ok in H'. intros m Hm.
  destruct (Forall2_lookup_l _ _ _ m m H') as (t & Ht & Harg);
    [by apply lookup_seq_lt|].
  destruct (np_argmax_maxQ_spec (channel a m)) as (t' & v & Ht' & _ & Hfm);
    [by apply channel_nonempty|].
  exists t, v. split; [done|]. by assert (t = t') as -> by congruence.
Qed.

Lemma dominant_channel_spec (a : list (list Q)) (vs : list Q) (c : nat) :
  max_axis0 a = Ok vs -> np_argmax vs = Ok c -> dominant_channel a c.
Proof.
  intros Hvs Hc. destruct (max_axis0_spec _ _ Hvs) as (Ha & Hlen & Hpeaks).
  destruct (np_argmax_maxQ_spec vs) as (c' & vc & Hc' & _ & Hfm);
    [by eapply np_argmax_Ok|].
  assert (c' = c) as -> by congruence.
  destruct Hfm as (Hlk & Hall & Hfirst).
  assert (Hcm : (c < num_channels a)%nat).
  { rewrite <- Hlen. by eapply lookup_lt_Some. }
  split; [done|]. intros t v Hp.
  destruct (Hpeaks c Hcm) as (t0 & v0 & Hv0 & Hp0).
  destruct (peak_unique _ _ _ _ _ _ Hp Hp0) as [_ ->].
  assert (v0 = vc) as -> by congruence.
  split.
  - intros m t' v' Hm Hp'. destruct (Hpeaks m Hm) as (t1 & v1 & Hv1 & Hp1).
    destruct (peak_unique _ _ _ _ _ _ Hp' Hp1) as [_ ->].
    rewrite Forall_forall in Hall. apply Hall.
    by eapply list_elem_of_lookup_2.
  - intros m t' v' Hm Hp'.
    destruct (Hpeaks m) as (t1 & v1 & Hv1 & Hp1); [lia|].
    destruct (peak_unique _ _ _ _ _ _ Hp' Hp1) as [_ ->].
    by eapply Hfirst.
Qed.

Lemma dominant_channel_unique (a : list (list Q)) c c' :
  a <> [] -> dominant_channel a c -> dominant_channel a c' -> c = c'.
Proof.
  intros Ha [Hc Hdom] [Hc' Hdom'].
  destruct (peak_exists a c Ha) as (t & v & Hp).
  destruct (peak_exists a c' Ha) as (t' & v' & Hp').
  destruct (Hdom _ _ Hp) as [Hge Hgt], (Hdom' _ _ Hp') as [Hge' Hgt'].
  destruct (Nat.lt_trichotomy c c') as [Hlt|[->|Hlt]]; [|done|]; exfalso.
  - apply (Qlt_irrefl v). apply (Qlt_le_trans _ v').
    + exact (Hgt' c t v Hlt Hp).
    + exact (Hge c' t' v' Hc' Hp').
  - apply (Qlt_irrefl v'). apply (Qlt_le_trans _ v).
    + exact (Hgt c' t' v' Hlt Hp').
    + exact (Hge' c t v Hc Hp).
Qed.

Lemma well_shaped_num_channels A T M a :
  well_shaped A T M -> a ∈ A -> a <> [] -> num_channels a = M.
Proof.
  intros Hws Ha Hne. unfold well_shaped in Hws. rewrite Forall_forall in Hws.
  destruct (Hws _ Ha) as [_ Hrows]. destruct a as [|row a]; [done|].
  unfold num_channels. simpl. by apply Forall_cons in Hrows as [? _].
Qed.

Lemma rectify_well_shaped detect_sign templates T M :
  well_shaped templates T M -> well_shaped (rectify detect_sign templates) T M.
Proof.
  unfold rectify, well_shaped. intros H.
  assert (Hmap : forall f : Q -> Q,
            Forall (fun a => length a = T /\ Forall (fun row => length row = M) a)
                   (map (map (map f)) templates)).
  { intros f. apply Forall_fmap. eapply Forall_impl; [exact H|]. simpl.
    intros a [Hl Hr]. split; [by rewrite length_map|].
    apply Forall_fmap. eapply Forall_impl; [exact Hr|]. simpl.
    intros row Hrow. by rewrite length_map. }
  destruct (detect_sign <? 0); [apply Hmap|].
  destruct (detect_sign >? 0); [done|apply Hmap].
Qed.

(** What the three tables hold for unit [i], for blocks of one shape. *)
Lemma compute_peak_tables_spec A T M tables i a :
  compute_peak_tables A = Ok tables ->
  well_shaped A T M ->
  A !! i = Some a ->
  a <> [] /\ num_channels a = M /\
  dominant_channel a (peak_channel tables i) /\
  forall m, (m < M)%nat ->
    exists t v, peak_on_channel a m t v /\
      peak_time tables i m = Z.of_nat t /\ peak_value tables i m = v.
Proof.
  intros Htab Hws Hi. unfold compute_peak_tables in Htab.
  destruct (mapM (fun Ai => v ← max_axis0 Ai; np_argmax v) A)
    as [pci|e] eqn:Hpci; [|done].
  destruct (mapM max_axis0 A) as [pv|e] eqn:Hpv; [|done].
  destruct (mapM argmax_axis0 A) as [pti|e] eqn:Hpti; [|done].
  simpl in Htab. injection Htab as <-.
  apply mapM_Ok in Hpci, Hpv, Hpti.
  destruct (Forall2_lookup_l _ _ _ _ _ Hpci Hi) as (c & Hc & Hcarg).
  destruct (Forall2_lookup_l _ _ _ _ _ Hpv Hi) as (vs & Hvs & Hmax).
  destruct (Forall2_lookup_l _ _ _ _ _ Hpti Hi) as (ts & Hts & Harg).
  rewrite Hmax in Hcarg. simpl in Hcarg.
  destruct (max_axis0_spec _ _ Hmax) as (Ha & Hlen & Hpeaks).
  assert (HM : num_channels a = M).
  { eapply well_shaped_num_channels; [done| |done].
    by eapply list_elem_of_lookup_2. }
  split; [done|]. split; [done|]. split.
  - unfold peak_channel. simpl. rewrite (list_lookup_total_correct _ _ _ Hc).
    by eapply dominant_channel_spec.
  - intros m Hm. rewrite <- HM in Hm.
    destruct (Hpeaks m Hm) as (t & v & Hv & Hp).
    destruct (argmax_axis0_spec _ _ Harg m Hm) as (t' & v' & Ht' & Hp').
    destruct (peak_unique _ _ _ _ _ _ Hp Hp') as [<- <-].
    exists t, v. split; [done|]. unfold peak_time, peak_value. simpl.
    rewrite (list_lookup_total_correct _ _ _ Hts).
    rewrite (list_lookup_total_correct _ _ _ Hvs).
    rewrite (list_lookup_total_correct _ _ _ Ht').
    by rewrite (list_lookup_total_correct _ _ _ Hv).
Qed.

Lemma length_rectify detect_sign templates :
  length (rectify detect_sign templates) = length templates.
Proof.
  unfold rectify. destruct (detect_sign <? 0); [by rewrite length_map|].
  destruct (detect_sign >? 0); [done|by rewrite length_map].
Qed.

(** The three nested tests of the code are the two criteria. *)
Lemma is_candidate_spec A T M tables i1 i2 :
  compute_peak_tables A = Ok tables ->
  well_shaped A T M ->
  (i1 < length A)%nat -> (i2 < length A)%nat ->
  is_candidate tables i1 i2 = true <-> merge_candidate A i1 i2.
Proof.
  intros Htab Hws Hi1 Hi2.
  destruct (lookup_lt_is_Some_2 A i1 Hi1) as [a1 Ha1].
  destruct (lookup_lt_is_Some_2 A i2 Hi2) as [a2 Ha2].
  destruct (compute_peak_tables_spec _ _ _ _ _ _ Htab Hws Ha1)
    as (Hne1 & HM1 & Hdom1 & Hpk1).
  destruct (compute_peak_tables_spec _ _ _ _ _ _ Htab Hws Ha2)
    as (Hne2 & HM2 & Hdom2 & Hpk2).
  set (c1 := peak_channel tables i1) in *.
  set (c2 := peak_channel tables i2) in *.
  assert (Hc1 : (c1 < M)%nat) by (rewrite <- HM1; apply Hdom1).
  assert (Hc2 : (c2 < M)%nat) by (rewrite <- HM2; apply Hdom2).
  destruct (Hpk1 c1 Hc1) as (t11 & v11 & Hp11 & Ht11 & Hv11).
  destruct (Hpk1 c2 Hc2) as (t12 & v12 & Hp12 & Ht12 & Hv12).
  destruct (Hpk2 c1 Hc1) as (t21 & v21 & Hp21 & Ht21 & Hv21).
  destruct (Hpk2 c2 Hc2) as (t22 & v22 & Hp22 & Ht22 & Hv22).
  assert (Hcode : is_candidate tables i1 i2 = true <->
            Z.abs ((Z.of_nat t21 - Z.of_nat t11)
                   - (Z.of_nat t22 - Z.of_nat t12)) <= 4 /\
            ((1 # 2) * v22 < v12)%Q /\ ((1 # 2) * v11 < v21)%Q).
  { unfold is_candidate, offset1, offset2. fold c1 c2.
    rewrite Ht11, Ht12, Ht21, Ht22, Hv11, Hv12, Hv21, Hv22.
    destruct (Z.leb_spec
                (Z.abs (Z.of_nat t21 - Z.of_nat t11
                        - (Z.of_nat t22 - Z.of_nat t12))) 4) as [Hle|Hgt];
      [|split; [done|lia]].
    destruct (Qgtb v12 ((1 # 2) * v22)) eqn:H12.
    - apply Qgtb_lt in H12.
      destruct (Qgtb v21 ((1 # 2) * v11)) eqn:H21.
      + apply Qgtb_lt in H21. done.
      + apply Qgtb_le in H21. split; [done|]. intros (_ & _ & H).
        exfalso. apply (Qlt_irrefl v21). by eapply Qle_lt_trans.
    - apply Qgtb_le in H12. split; [done|]. intros (_ & H & _).
      exfalso. apply (Qlt_irrefl v12). by eapply Qle_lt_trans. }
  rewrite Hcode. clear Hcode. split.
  - intros (Hoff & H12 & H21). unfold merge_candidate.
    exists a1, a2, c1, c2, t11, t12, t21, t22, v11, v12, v21, v22.
    repeat (split; [assumption|]). assumption.
  - intros (a1' & a2' & c1' & c2' & t11' & t12' & t21' & t22'
            & v11' & v12' & v21' & v22' & Ha1' & Ha2' & Hd1 & Hd2
            & Hq11 & Hq12 & Hq21 & Hq22 & Hoff & H12 & H21).
    assert (a1' = a1) as -> by congruence.
    assert (a2' = a2) as -> by congruence.
    assert (c1' = c1) as ->
      by exact (dominant_channel_unique a1 c1' c1 Hne1 Hd1 Hdom1).
    assert (c2' = c2) as ->
      by exact (dominant_channel_unique a2 c2' c2 Hne2 Hd2 Hdom2).
    destruct (peak_unique _ _ _ _ _ _ Hq11 Hp11) as [-> ->].
    destruct (peak_unique _ _ _ _ _ _ Hq12 Hp12) as [-> ->].
    destruct (peak_unique _ _ _ _ _ _ Hq21 Hp21) as [-> ->].
    destruct (peak_unique _ _ _ _ _ _ Hq22 Hp22) as [-> ->].
    done.
Qed.

(** C8: when the scan returns, [test_merge] has been called for the pair
    [(i1, i2)] if and only if [i2 < i1] are two units and (a) the two offset
    estimates, taken on the dominant channel of each unit, differ by at most
    4 samples and (b) the amplitude of each unit on the dominant channel of
    the other exceeds half of the amplitude the other unit has there. *)
Theorem candidate_scan_tests_candidates
    (pca : list (list Q) -> Z -> result (list (list Q)))
    (iso : list (list Q) -> result (list Z))
    (snippets templates : list (list (list Q))) (labels : list Z)
    (detect_sign : Z) (unit_ids : list Z) (T M : nat) (s : scan_state) :
  well_shaped templates T M ->
  candidate_scan pca iso snippets templates labels detect_sign unit_ids
    = Ok s ->
  forall i1 i2,
    (i1, i2) ∈ tested s <->
    (i2 < i1 < length templates)%nat /\
    merge_candidate (rectify detect_sign templates) i1 i2.
Proof.
  intros Hws Hrun i1 i2. unfold candidate_scan in Hrun.
  destruct (compute_peak_tables _) as [tables|e] eqn:Htab; [|done].
  simpl in Hrun. rewrite scan_pairs_flat in Hrun.
  apply for_each_scan_pair in Hrun as [Ht _]. simpl in Ht. rewrite Ht.
  rewrite list_elem_of_filter, pair_order_spec. simpl.
  apply (rectify_well_shaped detect_sign) in Hws.
  split.
  - intros [Hc Hi]. split; [done|].
    apply (is_candidate_spec _ T M tables); try done;
      rewrite length_rectify; lia.
  - intros [Hi Hc]. split; [|done].
    apply (is_candidate_spec _ T M tables) in Hc; try done;
      rewrite length_rectify; lia.
Qed.

Lemma templates3_well_shaped : well_shaped templates3 2 1.
Proof. repeat constructor. Qed.

Lemma candidate_scan_tests_candidates_witness :
  exists s,
    candidate_scan pca_capped iso_single templates3 templates3 [1; 2; 3] 1
      [1; 2; 3] = Ok s /\
    merge_candidate (rectify 1 templates3) 2 1.
Proof.
  destruct scan3_runs as (s & Hs & Ht & _).
  exists s. split; [exact Hs|].
  apply (candidate_scan_tests_candidates pca_capped iso_single templates3
           templates3 [1; 2; 3] 1 [1; 2; 3] 2 1 s
           templates3_well_shaped Hs 2%nat 1%nat).
  rewrite Ht. set_solver.
Defined.

(** *** When the scan returns *)

Lemma mapM_returns {A B} (f : A -> result B) : forall l,
  (forall x, x ∈ l -> exists y, f x = Ok y) -> exists k, mapM f l = Ok k.
Proof.
  induction l as [|x l IH]; intros Hf; simpl; [by eexists|].
  destruct (Hf x) as [y Hy]; [by left|].
  destruct IH as [k Hk]; [intros x' Hx'; apply Hf; by right|].
  exists (y :: k). by rewrite Hy, Hk.
Qed.

Lemma for_each_returns {S I} (body : S -> I -> result S) : forall l s,
  (forall s i, i ∈ l -> exists s', body s i = Ok s') ->
  exists s', for_each body s l = Ok s'.
Proof.
  induction l as [|i l IH]; intros s Hb; simpl; [by eexists|].
  destruct (Hb s i) as [s1 Hs1]; [by left|]. rewrite Hs1. simpl.
  apply IH. intros s2 i' Hi'. apply Hb. by right.
Qed.

Lemma compute_peak_tables_returns A T M :
  well_shaped A T M -> (0 < T)%nat -> (0 < M)%nat ->
  exists tables, compute_peak_tables A = Ok tables.
Proof.
  intros Hws HT HM. unfold well_shaped in Hws. rewrite Forall_forall in Hws.
  assert (Hshape : forall a, a ∈ A -> a <> [] /\ num_channels a = M).
  { intros a Ha. destruct (Hws a Ha) as [Hlen Hrows].
    destruct a as [|row a]; [simpl in Hlen; lia|]. split; [done|].
    unfold num_channels. simpl. by apply Forall_cons in Hrows as [? _]. }
  assert (Hmax : forall a, a ∈ A ->
            exists vs, max_axis0 a = Ok vs /\ vs <> []).
  { intros a Ha. destruct (Hshape a Ha) as [Hne HMa].
    destruct (mapM_returns (fun m => np_maxQ (channel a m))
                (seq 0 (num_channels a))) as [vs Hvs].
    - intros m _.
      destruct (np_argmax_maxQ_spec (channel a m)) as (t & v & _ & Hv & _);
        [by apply channel_nonempty|]. by exists v.
    - exists vs. split; [by destruct a|].
      apply mapM_Ok, Forall2_length in Hvs. rewrite length_seq, HMa in Hvs.
      intros ->. simpl in Hvs. lia. }
  unfold compute_peak_tables.
  destruct (mapM_returns (fun Ai => v ← max_axis0 Ai; np_argmax v) A)
    as [pci ->].
  { intros a Ha. destruct (Hmax a Ha) as (vs & -> & Hvs). simpl.
    destruct (np_argmax_maxQ_spec vs Hvs) as (c & _ & Hc & _). by exists c. }
  destruct (mapM_returns max_axis0 A) as [pv ->].
  { intros a Ha. destruct (Hmax a Ha) as (vs & Hvs & _). by exists vs. }
  destruct (mapM_returns argmax_axis0 A) as [pti ->].
  { intros a Ha. destruct (Hshape a Ha) as [Hne _].
    destruct (mapM_returns (fun m => np_argmax (channel a m))
                (seq 0 (num_channels a))) as [ts Hts].
    - intros m _.
      destruct (np_argmax_maxQ_spec (channel a m)) as (t & v & Ht & _ & _);
        [by apply channel_nonempty|]. by exists t.
    - exists ts. by destruct a. }
  simpl. by eexists.
Qed.


(** *** The positions cleared by the duplicate removal *)

Lemma nonzero_from_spec : forall flags i,
  StronglySorted lt (nonzero_from i flags) /\
  forall p, p ∈ nonzero_from i flags <->
            exists j, p = (i + j)%nat /\ flags !! j = Some true.
Proof.
  induction flags as [|b flags IH]; intros i; simpl.
  { split; [constructor|]. intros p. split; [by intros ?%elem_of_nil|].
    by intros (j & _ & ?). }
  destruct (IH (S i)) as [Hs Hin].
  assert (Hshift : forall p, p ∈ nonzero_from (S i) flags <->
            exists j, p = (i + S j)%nat /\ (b :: flags) !! S j = Some true).
  { intros p. rewrite Hin. simpl. split; intros (j & -> & Hj); exists j;
      (split; [lia|done]). }
  destruct b.
  - split.
    + constructor; [done|]. apply Forall_forall. intros p Hp.
      apply Hin in Hp as (j & -> & _). lia.
    + intros p. rewrite elem_of_cons, Hshift. split.
      * intros [->|(j & -> & Hj)]; [exists 0%nat|exists (S j)];
          (split; [lia|done]).
      * intros ([|j] & -> & Hj); [left; lia|right; by exists j].
  - split; [done|].
    intros p. rewrite Hshift. split.
    + intros (j & -> & Hj). by exists (S j).
    + intros ([|j] & -> & Hj); [done|by exists j].
Qed.

Lemma StronglySorted_lt_lookup_total (l : list nat) i j :
  StronglySorted lt l -> (i < j < length l)%nat -> (l !!! i < l !!! j)%nat.
Proof.
  intros Hs. revert i j. induction Hs as [|x l Hs IH Hall]; intros i j Hij.
  { simpl in Hij. lia. }
  destruct j as [|j]; [lia|]. destruct i as [|i]; simpl in *.
  - rewrite Forall_forall in Hall. apply Hall.
    apply list_elem_of_lookup_total_2. lia.
  - apply IH. lia.
Qed.

Lemma map_lookup_total_sorted (inds dups : list nat) :
  StronglySorted lt inds ->
  StronglySorted lt dups ->
  Forall (fun d => (d < length inds)%nat) dups ->
  StronglySorted lt (map (fun d => inds !!! d) dups).
Proof.
  intros Hinds Hs. induction Hs as [|d dups Hs IH Hall]; intros Hr; simpl.
  { constructor. }
  apply Forall_cons in Hr as [Hd Hr].
  constructor; [by apply IH|].
  apply Forall_fmap. rewrite Forall_forall in Hall, Hr.
  apply Forall_forall. intros d' Hd'. simpl.
  apply StronglySorted_lt_lookup_total; [done|].
  split; [by apply Hall|by apply Hr].
Qed.

(** C10: whatever the times and the tolerance, the returned indices are
    strictly increasing, hence without repetition, and lie in
    [[1, len(times))]; index 0 is never returned.  For the caller this means
    that the positions [inds0[duplicate_inds]] it clears are distinct
    positions of events of the unit, and that the first event of the unit is
    never among them. *)
Theorem find_duplicate_times_indices_valid
    (times : list Z) (tol : Z) (events : list event) (unit_id : Z) :
  (StronglySorted lt (find_duplicate_times times tol) /\
   NoDup (find_duplicate_times times tol) /\
   Forall (fun i => (1 <= i < length times)%nat)
          (find_duplicate_times times tol) /\
   0%nat ∉ find_duplicate_times times tol) /\
  (NoDup (duplicate_positions events tol unit_id) /\
   Forall (fun p => exists e, events !! p = Some e /\ label e = unit_id)
          (duplicate_positions events tol unit_id) /\
   forall p,
     head (nonzero (map (fun e => bool_decide (label e = unit_id)) events))
       = Some p ->
     p ∉ duplicate_positions events tol unit_id).
Proof.
  split.
  - destruct (find_duplicate_times_range times tol) as [Hs Hr].
    split; [done|]. split; [by apply StronglySorted_lt_NoDup|].
    split; [done|]. rewrite Forall_forall in Hr. intros H0%Hr. lia.
  - unfold duplicate_positions.
    set (flags := map (fun e => bool_decide (label e = unit_id)) events).
    destruct (nonzero_from_spec flags 0) as [Hsorted Hin].
    fold (nonzero flags) in Hsorted, Hin.
    destruct (nonzero flags) as [|p0 inds] eqn:Hinds.
    { split; [constructor|]. split; [constructor|]. intros p _ ?%elem_of_nil.
      done. }
    set (inds0 := p0 :: inds) in *.
    set (times0 := map (fun i => time (events !!! i)) inds0).
    destruct (find_duplicate_times_range times0 tol) as [Hs Hr].
    assert (Hlen : length times0 = length inds0)
      by (unfold times0; by rewrite length_map).
    rewrite Hlen in Hr.
    assert (Hmapped : StronglySorted lt
              (map (fun d => inds0 !!! d) (find_duplicate_times times0 tol))).
    { apply map_lookup_total_sorted; [done|done|].
      eapply Forall_impl; [exact Hr|]. simpl. lia. }
    split; [by apply StronglySorted_lt_NoDup|]. split.
    + apply Forall_fmap, Forall_forall. intros d Hd. simpl.
      rewrite Forall_forall in Hr. specialize (Hr _ Hd).
      assert (Hp : inds0 !!! d ∈ inds0)
        by (apply list_elem_of_lookup_total_2; lia).
      apply Hin in Hp as (j & Hj & Hmask). simpl in Hj. rewrite Hj.
      unfold flags in Hmask. rewrite list_lookup_fmap in Hmask.
      destruct (events !! j) as [e|] eqn:He; [|done].
      exists e. split; [done|]. simpl in Hmask.
      injection Hmask as Hb. by apply bool_decide_eq_true in Hb.
    + intros p [= <-] Hp. apply list_elem_of_fmap in Hp as (d & Hd0 & Hd).
      rewrite Forall_forall in Hr. specialize (Hr _ Hd).
      assert (Hlt : (inds0 !!! 0%nat < inds0 !!! d)%nat)
        by (apply StronglySorted_lt_lookup_total; [done|lia]).
      rewrite <- Hd0 in Hlt. simpl in Hlt. lia.
Qed.

(** *** Further properties of the candidate scan and the application *)

(** X8: The three criteria do not depend on the order of the pair: swapping the
    two units negates and exchanges the two offset estimates and exchanges
    the two amplitude tests.  The scan, which visits each unordered pair
    once (with [i2 < i1]), therefore misses no candidate. *)
Theorem is_candidate_symmetric (tables : peak_tables) (i1 i2 : nat) :
  offset1 tables i2 i1 = - offset2 tables i1 i2 /\
  offset2 tables i2 i1 = - offset1 tables i1 i2 /\
  is_candidate tables i2 i1 = is_candidate tables i1 i2.
Proof.
  assert (H1 : offset1 tables i2 i1 = - offset2 tables i1 i2)
    by (unfold offset1, offset2; lia).
  assert (H2 : offset2 tables i2 i1 = - offset1 tables i1 i2)
    by (unfold offset1, offset2; lia).
  split_and!; [done|done|].
  unfold is_candidate. rewrite H1, H2.
  replace (Z.abs (- offset2 tables i1 i2 - - offset1 tables i1 i2))
    with (Z.abs (offset1 tables i1 i2 - offset2 tables i1 i2)) by lia.
  destruct (_ <=? 4); [|done].
  destruct (Qgtb (peak_value tables i1 _) _), (Qgtb (peak_value tables i2 _) _);
    done.
Qed.

(** Every record that the scan leaves was written for a pair [i2 < i1]. *)
Lemma candidate_scan_records
    (pca : list (list Q) -> Z -> result (list (list Q)))
    (iso : list (list Q) -> result (list Z))
    (snippets templates : list (list (list Q))) (labels : list Z)
    (detect_sign : Z) (unit_ids : list Z) (s : scan_state) :
  candidate_scan pca iso snippets templates labels detect_sign unit_ids
    = Ok s ->
  forall u mm, merges s !! u = Some mm ->
    exists i1 i2, (i2 < i1 < length templates)%nat /\
      u = unit_ids !!! i1 /\ unit_id1 mm = u /\ unit_id2 mm = unit_ids !!! i2.
Proof.
  intros Hrun. unfold candidate_scan in Hrun.
  destruct (compute_peak_tables _) as [tables|e]; [|done].
  simpl in Hrun. rewrite scan_pairs_flat in Hrun.
  apply for_each_scan_pair in Hrun as [_ Hm]. simpl in Hm.
  intros u mm Hu. rewrite Hm in Hu.
  apply foldl_record_pair_origin in Hu
    as [Hu|([i1 i2] & Hp & _ & -> & ->)]; [done|].
  apply pair_order_spec in Hp. by exists i1, i2.
Qed.

Lemma StronglySorted_Zlt_lookup_total (l : list Z) i j :
  StronglySorted Z.lt l -> (i < j < length l)%nat -> l !!! i < l !!! j.
Proof.
  intros Hs. revert i j. induction Hs as [|x l Hs IH Hall]; intros i j Hij.
  { simpl in Hij. lia. }
  destruct j as [|j]; [lia|]. destruct i as [|i]; simpl.
  - rewrite Forall_forall in Hall. apply Hall.
    apply list_elem_of_lookup_total_2. simpl in Hij. lia.
  - apply IH. simpl in Hij. lia.
Qed.

(** One event through the application loop over an ascending [unit_ids],
    every record pointing to a lower id: the event ends in a unit without a
    record, its label never grows, and it is left alone when its own unit has
    no record. *)
Lemma track_resolved merges :
  keys_consistent merges ->
  forall unit_ids,
    StronglySorted Z.lt unit_ids ->
    (forall u mm, u ∈ unit_ids -> merges !! u = Some mm -> unit_id2 mm < u) ->
    forall e,
      (label (track merges (reverse unit_ids) e) ∈ unit_ids ->
       merges !! label (track merges (reverse unit_ids) e) = None) /\
      (label (track merges (reverse unit_ids) e) = label e \/
       (label (track merges (reverse unit_ids) e) < label e /\
        label e ∈ unit_ids)) /\
      (merges !! label e = None -> track merges (reverse unit_ids) e = e).
Proof.
  intros Hk unit_ids.
  induction unit_ids as [|u l IH] using rev_ind; intros Hs Hlow e.
  { simpl. split_and!; [|by left|done]. intros H. by apply elem_of_nil in H. }
  assert (Hsl : StronglySorted Z.lt l) by by apply StronglySorted_app_1_l in Hs.
  assert (Hlt : forall v, v ∈ l -> v < u).
  { intros v Hv. apply (StronglySorted_app_1_elem_of _ _ _ _ _ Hs Hv). by left. }
  assert (Hlow' : forall v mm, v ∈ l -> merges !! v = Some mm -> unit_id2 mm < v).
  { intros v mm Hv. apply Hlow. apply elem_of_app. by left. }
  specialize (IH Hsl Hlow').
  rewrite reverse_snoc, track_cons.
  destruct (merges !! u) as [mm|] eqn:Hmu.
  - destruct (decide (label e = u)) as [He|He].
    + rewrite (step_event_hit merges e u mm Hmu); [|by rewrite (Hk _ _ Hmu)].
      assert (Ht : unit_id2 mm < u).
      { apply (Hlow u mm); [|done]. apply elem_of_app. right. by left. }
      destruct (IH (Event (time e + offset mm) (unit_id2 mm)))
        as (H1 & H2 & _). simpl in *.
      set (e' := track merges (reverse l) _) in *.
      assert (Hle : label e' < u) by (destruct H2 as [->|[? _]]; lia).
      split_and!.
      * intros Hin. apply elem_of_app in Hin as [Hin|Hin]; [by apply H1|].
        apply list_elem_of_singleton in Hin. lia.
      * right. split; [lia|]. apply elem_of_app. right. rewrite He. by left.
      * rewrite He, Hmu. done.
    + rewrite step_event_miss; [|done|done].
      destruct (IH e) as (H1 & H2 & H3).
      set (e' := track merges (reverse l) e) in *.
      split_and!; [| |done].
      * intros Hin. apply elem_of_app in Hin as [Hin|Hin]; [by apply H1|].
        apply list_elem_of_singleton in Hin.
        destruct H2 as [H2|[H2 Hel]]; [congruence|]. apply Hlt in Hel. lia.
      * destruct H2 as [H2|[H2 Hel]]; [by left|right].
        split; [done|]. apply elem_of_app. by left.
  - assert (Hstep : step_event merges e u = e).
    { unfold step_event. by rewrite Hmu. }
    rewrite Hstep.
    destruct (IH e) as (H1 & H2 & H3).
    set (e' := track merges (reverse l) e) in *.
    split_and!; [| |done].
    * intros Hin. apply elem_of_app in Hin as [Hin|Hin]; [by apply H1|].
      apply list_elem_of_singleton in Hin. by rewrite Hin.
    * destruct H2 as [H2|[H2 Hel]]; [by left|right].
      split; [done|]. apply elem_of_app. by left.
Qed.

(** X9: After a scan that returned, on ascending [unit_ids], the application
    resolves every merge, however long the chains: it returns, no event is
    left in a unit that has a record, the label of an event never grows, and
    the events of a unit without a record are not touched. *)
Theorem apply_merges_resolves_all
    (pca : list (list Q) -> Z -> result (list (list Q)))
    (iso : list (list Q) -> result (list Z))
    (snippets templates : list (list (list Q))) (labels : list Z)
    (detect_sign : Z) (unit_ids : list Z) (s : scan_state)
    (events : list event) :
  candidate_scan pca iso snippets templates labels detect_sign unit_ids
    = Ok s ->
  StronglySorted Z.lt unit_ids ->
  length unit_ids = length templates ->
  exists events',
    apply_merges (merges s) unit_ids events = Ok events' /\
    Forall2 (fun e e' =>
               merges s !! label e' = None /\
               label e' <= label e /\
               (merges s !! label e = None -> e' = e))
            events events'.
Proof.
  intros Hrun Hs Hlen.
  pose proof (candidate_scan_keys_consistent _ _ _ _ _ _ _ _ Hrun) as Hk.
  pose proof (candidate_scan_records _ _ _ _ _ _ _ _ Hrun) as Hrec.
  eexists. split; [by apply apply_merges_track|].
  apply Forall2_fmap_r, Forall_Forall2_diag, Forall_forall. intros e _.
  assert (Hlow : forall u mm, u ∈ unit_ids -> merges s !! u = Some mm ->
                   unit_id2 mm < u).
  { intros u mm _ Hu. destruct (Hrec u mm Hu) as (i1 & i2 & Hi & -> & _ & ->).
    apply StronglySorted_Zlt_lookup_total; [done|lia]. }
  destruct (track_resolved (merges s) Hk unit_ids Hs Hlow e) as (H1 & H2 & H3).
  split_and!; [| |done].
  - destruct (merges s !! label (track _ _ e)) as [mm|] eqn:Hm; [|done].
    exfalso. destruct (Hrec _ mm Hm) as (i1 & i2 & Hi & Hl & _).
    discriminate H1.
    rewrite Hl. apply list_elem_of_lookup_total_2. lia.
  - destruct H2 as [->|[? _]]; lia.
Qed.

Lemma apply_merges_resolves_all_witness :
  exists events',
    apply_merges merges_chain [1; 2; 3] [Event 100 3; Event 200 2] = Ok events' /\
    Forall2 (fun e e' => merges_chain !! label e' = None /\ label e' <= label e)
            [Event 100 3; Event 200 2] events'.
Proof.
  destruct (apply_merges_resolves_all pca_capped iso_single templates_chain
              templates_chain [1; 2; 3] 1 [1; 2; 3]
              (ScanState merges_chain [(1, 0); (2, 1)]%nat)
              [Event 100 3; Event 200 2]) as (events' & Hrun & Hall).
  - reflexivity.
  - repeat constructor; lia.
  - reflexivity.
  - exists events'. split; [exact Hrun|].
    eapply Forall2_impl; [exact Hall|]. simpl. intros e e' (H1 & H2 & _). done.
Defined.

(** *** The duplicate removal of one unit as one pass *)

Lemma unit_times_nonzero (u : Z) : forall l pre,
  map (fun p => time ((pre ++ l) !!! p))
      (nonzero_from (length pre)
         (map (fun e => bool_decide (label e = u)) l))
  = unit_times u l.
Proof.
  unfold unit_times.
  induction l as [|e l IH]; intros pre; [done|]. simpl.
  replace (pre ++ e :: l) with ((pre ++ [e]) ++ l) by by rewrite <- app_assoc.
  specialize (IH (pre ++ [e])).
  rewrite length_app, Nat.add_1_r in IH. simpl in IH.
  case_bool_decide as He.
  - rewrite filter_cons_True by done. simpl. rewrite IH. f_equal.
    rewrite <- app_assoc. simpl. by rewrite list_lookup_total_middle.
  - rewrite filter_cons_False by done. apply IH.
Qed.

Lemma foldl_clear_label_mark (u tol : Z) : forall l pre bound,
  foldl clear_label (pre ++ l)
    (map (fun d => nonzero_from (length pre)
                     (map (fun e => bool_decide (label e = u)) l) !!! d)
         (sweep tol bound 0 (unit_times u l)))
  = pre ++ mark_duplicates u tol bound l.
Proof.
  unfold unit_times.
  induction l as [|e l IH]; intros pre bound; [done|]. simpl.
  assert (Hpre : forall e', pre ++ e' :: l = (pre ++ [e']) ++ l)
    by (intros e'; by rewrite <- app_assoc).
  assert (Hlen : forall e', length (pre ++ [e']) = S (length pre))
    by (intros e'; rewrite length_app; simpl; lia).
  case_bool_decide as He.
  - rewrite filter_cons_True by done. simpl.
    assert (Hshift : forall bd,
      map (fun d => (length pre :: nonzero_from (S (length pre))
                       (map (fun e0 => bool_decide (label e0 = u)) l)) !!! d)
          (sweep tol bd 1 (map time (filter (fun e0 => label e0 = u) l)))
      = map (fun d => nonzero_from (S (length pre))
                       (map (fun e0 => bool_decide (label e0 = u)) l) !!! d)
          (sweep tol bd 0 (map time (filter (fun e0 => label e0 = u) l)))).
    { intros bd. rewrite (sweep_shift tol _ bd 1 0), map_map. done. }
    destruct bound as [b|].
    + destruct (time e <=? b) eqn:Hb.
      * simpl. rewrite Hshift.
        replace (clear_label (pre ++ e :: l) (length pre))
          with ((pre ++ [Event (time e) 0]) ++ l).
        2:{ unfold clear_label.
            rewrite <- (Nat.add_0_r (length pre)) at 1.
            rewrite alter_app_r. simpl. by rewrite <- app_assoc. }
        specialize (IH (pre ++ [Event (time e) 0]) (Some b)).
        rewrite Hlen in IH. rewrite IH. by rewrite <- app_assoc.
      * rewrite Hshift, (Hpre e).
        specialize (IH (pre ++ [e]) (Some (time e + tol))).
        rewrite Hlen in IH. rewrite IH. by rewrite <- app_assoc.
    + rewrite Hshift, (Hpre e).
      specialize (IH (pre ++ [e]) (Some (time e + tol))).
      rewrite Hlen in IH. rewrite IH. by rewrite <- app_assoc.
  - rewrite filter_cons_False by done. rewrite (Hpre e).
    specialize (IH (pre ++ [e]) bound).
    rewrite Hlen in IH. rewrite IH. by rewrite <- app_assoc.
Qed.

(** One iteration of the duplicate removal is one pass over the events. *)
Lemma remove_unit_duplicates_mark (tol : Z) (events : list event) (u : Z) :
  remove_unit_duplicates tol events u = mark_duplicates u tol None events.
Proof.
  unfold remove_unit_duplicates, duplicate_positions, nonzero.
  pose proof (unit_times_nonzero u events []) as Ht. simpl in Ht.
  pose proof (foldl_clear_label_mark u tol events [] None) as Hm.
  simpl in Hm. rewrite <- Hm, <- Ht, find_duplicate_times_sweep.
  destruct (nonzero_from 0 _) as [|p ps] eqn:Hn; [done|done].
Qed.

Lemma mark_duplicates_zero (tol : Z) : forall l bound,
  mark_duplicates 0 tol bound l = l.
Proof.
  induction l as [|[t lb] l IH]; intros bound; [done|]. simpl.
  case_bool_decide as He; [|by rewrite IH]. simpl in He. subst lb.
  destruct bound as [b|]; [destruct (t <=? b)|]; by rewrite IH.
Qed.

Lemma mark_duplicates_other (u tol v : Z) : v <> 0 -> v <> u ->
  forall l bound,
    filter (fun e => label e = v) (mark_duplicates u tol bound l)
    = filter (fun e => label e = v) l.
Proof.
  intros Hv0 Hvu. induction l as [|e l IH]; intros bound; [done|]. simpl.
  case_bool_decide as He.
  - rewrite (filter_cons_False _ e) by congruence.
    destruct bound as [b|]; [destruct (time e <=? b)|].
    + rewrite filter_cons_False by (simpl; congruence). apply IH.
    + rewrite filter_cons_False by congruence. apply IH.
    + rewrite filter_cons_False by congruence. apply IH.
  - rewrite !filter_cons, IH. done.
Qed.

Lemma mark_duplicates_unit (u tol : Z) : u <> 0 ->
  forall l bound,
    unit_times u (mark_duplicates u tol bound l)
    = survivors tol bound (unit_times u l).
Proof.
  intros Hu. unfold unit_times.
  induction l as [|e l IH]; intros bound; [done|]. simpl.
  case_bool_decide as He.
  - rewrite (filter_cons_True _ e) by done. simpl.
    destruct bound as [b|]; [destruct (time e <=? b)|].
    + rewrite filter_cons_False by (simpl; congruence). apply IH.
    + rewrite filter_cons_True by done. simpl. by rewrite IH.
    + rewrite filter_cons_True by done. simpl. by rewrite IH.
  - rewrite !filter_cons_False by done. apply IH.
Qed.

Lemma kept_times_survivors (times : list Z) (tol : Z) :
  kept_times times tol = survivors tol None times.
Proof.
  unfold kept_times. rewrite find_duplicate_times_sweep. apply keep_from_sweep.
Qed.

Lemma keep_from_nil {A} (xs : list A) : forall i, keep_from i [] xs = xs.
Proof.
  induction xs as [|x xs IH]; intros i; [done|]. cbn [keep_from].
  rewrite bool_decide_false by apply not_elem_of_nil. by rewrite IH.
Qed.

Lemma kept_times_kept_times (times : list Z) (tol : Z) :
  kept_times (kept_times times tol) tol = kept_times times tol.
Proof.
  unfold kept_times at 1. rewrite find_duplicate_times_sweep.
  rewrite kept_times_survivors, sweep_survivors. apply keep_from_nil.
Qed.

(** The duplicate removal over all units: the times left in a unit that is
    visited are those that [find_duplicate_times] keeps, and the events of
    the other units are left as they are. *)
Lemma foldl_remove_unit_duplicates_unit (tol u : Z) : u <> 0 ->
  forall us l,
    unit_times u (foldl (remove_unit_duplicates tol) l us)
    = if bool_decide (u ∈ us) then kept_times (unit_times u l) tol
      else unit_times u l.
Proof.
  intros Hu. induction us as [|v us IH]; intros l; cbn [foldl].
  { by rewrite bool_decide_false by apply not_elem_of_nil. }
  rewrite IH, remove_unit_duplicates_mark.
  destruct (decide (v = u)) as [->|Hv].
  - rewrite mark_duplicates_unit by done. rewrite <- kept_times_survivors.
    rewrite (bool_decide_true (u ∈ u :: us)) by by left.
    case_bool_decide; [apply kept_times_kept_times|done].
  - assert (Hsame : unit_times u (mark_duplicates v tol None l) = unit_times u l).
    { destruct (decide (v = 0)) as [->|Hv0]; [by rewrite mark_duplicates_zero|].
      unfold unit_times. by rewrite mark_duplicates_other. }
    rewrite Hsame.
    assert (Hiff : u ∈ v :: us <-> u ∈ us).
    { rewrite elem_of_cons. split; [intros [?|?]; [congruence|done]|by right]. }
    by rewrite (bool_decide_ext _ _ Hiff).
Qed.

Lemma unit_times_drop_removed (u : Z) (l : list event) : u <> 0 ->
  unit_times u (drop_removed l) = unit_times u l.
Proof.
  intros Hu. unfold unit_times, drop_removed. f_equal.
  apply list_filter_filter_l. intros e He. congruence.
Qed.

(** *** When the scan fails *)

(** X10: Templates without a time sample or without a channel: the reductions
    over the empty axis fail, for the first template already, and the
    [ValueError] leaves the scan. *)
Theorem candidate_scan_zero_size
    (pca : list (list Q) -> Z -> result (list (list Q)))
    (iso : list (list Q) -> result (list Z))
    (snippets templates : list (list (list Q))) (labels : list Z)
    (detect_sign : Z) (unit_ids : list Z) (T M : nat) :
  well_shaped templates T M ->
  templates <> [] ->
  T = 0%nat \/ M = 0%nat ->
  candidate_scan pca iso snippets templates labels detect_sign unit_ids
    = Raise ValueError.
Proof.
  intros Hws Hne Hzero.
  apply (rectify_well_shaped detect_sign) in Hws.
  assert (HneA : rectify detect_sign templates <> []).
  { intros HA. apply Hne. apply length_zero_iff_nil.
    by rewrite <- (length_rectify detect_sign), HA. }
  unfold candidate_scan, compute_peak_tables.
  destruct (rectify detect_sign templates) as [|a A]; [done|].
  apply Forall_cons in Hws as [[HT HMa] _].
  assert (Hfirst : (v ← max_axis0 a; np_argmax v) = Raise ValueError).
  { destruct a as [|row a]; [done|].
    destruct Hzero as [->| ->]; [simpl in HT; lia|].
    apply Forall_cons in HMa as [Hrow _].
    unfold max_axis0, num_channels. simpl. rewrite Hrow. done. }
  cbn [mapM]. rewrite Hfirst. done.
Qed.

Lemma candidate_scan_zero_size_witness :
  candidate_scan pca_capped iso_single [] [[]] [] 1 [1] = Raise ValueError.
Proof.
  apply (candidate_scan_zero_size pca_capped iso_single [] [[]] [] 1 [1] 0 0).
  - repeat constructor.
  - discriminate.
  - by left.
Defined.


(** *** What [test_merge] hands to the dimensionality reduction *)

Lemma concat_lookup_uniform {A} (M : nat) : forall (block : list (list A)) t m row,
  Forall (fun r => length r = M) block ->
  block !! t = Some row -> (m < M)%nat ->
  concat block !! (t * M + m)%nat = row !! m.
Proof.
  induction block as [|r block IH]; intros t m row Hall Ht Hm; [done|].
  apply Forall_cons in Hall as [Hr Hall]. simpl.
  destruct t as [|t]; simpl in *.
  - injection Ht as <-. rewrite lookup_app_l by lia. done.
  - rewrite lookup_app_r by lia.
    replace (M + t * M + m - length r)%nat with (t * M + m)%nat by lia.
    by apply IH.
Qed.

Lemma length_concat_uniform {A} (M : nat) : forall (block : list (list A)),
  Forall (fun r => length r = M) block ->
  length (concat block) = (length block * M)%nat.
Proof.
  induction block as [|r block IH]; intros Hall; [done|].
  apply Forall_cons in Hall as [Hr Hall]. simpl.
  rewrite length_app, IH by done. lia.
Qed.

(** X19: the array [Vall] of [test_merge], for two batches of snippets of
    one shape [T x M]: it has one row per snippet, those of the first batch
    before those of the second, each row has [T * M] entries, and the
    amplitude of a snippet at time [t] on channel [m] stands in column
    [t * M + m] of its row. *)
Theorem test_merge_reduction_input
    (snippets1 snippets2 : list (list (list Q))) (T M : nat) :
  well_shaped snippets1 T M ->
  well_shaped snippets2 T M ->
  length (reshape_rows snippets1 ++ reshape_rows snippets2)
    = (length snippets1 + length snippets2)%nat /\
  Forall (fun row => length row = (T * M)%nat)
         (reshape_rows snippets1 ++ reshape_rows snippets2) /\
  forall l s t samples m,
    (snippets1 ++ snippets2) !! l = Some s ->
    s !! t = Some samples -> (m < M)%nat ->
    exists row,
      (reshape_rows snippets1 ++ reshape_rows snippets2) !! l = Some row /\
      row !! (t * M + m)%nat = samples !! m.
Proof.
  intros H1 H2.
  assert (Hws : well_shaped (snippets1 ++ snippets2) T M)
    by by apply Forall_app.
  assert (Happ : reshape_rows snippets1 ++ reshape_rows snippets2
                 = reshape_rows (snippets1 ++ snippets2))
    by (unfold reshape_rows; by rewrite map_app).
  rewrite Happ. unfold reshape_rows.
  unfold well_shaped in Hws. rewrite Forall_forall in Hws.
  split_and!.
  - by rewrite length_map, length_app.
  - apply Forall_forall. intros row Hrow.
    apply list_elem_of_fmap in Hrow as (s & -> & Hs).
    destruct (Hws s Hs) as [HT HM].
    rewrite (length_concat_uniform M) by done. by rewrite HT.
  - intros l s t samples m Hl Ht Hm. exists (concat s).
    split; [by rewrite list_lookup_fmap, Hl|].
    destruct (Hws s (list_elem_of_lookup_2 _ _ _ Hl)) as [_ HM].
    by apply (concat_lookup_uniform M).
Qed.

Lemma test_merge_reduction_input_witness :
  length (reshape_rows one_snippet ++ reshape_rows one_snippet) = 2%nat /\
  Forall (fun row => length row = 4%nat)
         (reshape_rows one_snippet ++ reshape_rows one_snippet).
Proof.
  destruct (test_merge_reduction_input one_snippet one_snippet 2 2)
    as (Hlen & Hrows & _).
  - repeat constructor.
  - repeat constructor.
  - split; [exact Hlen|exact Hrows].
Defined.

End PairwiseMergeFacts.

(** ** Properties of the chunk loop *)

Module OrchestratorFacts.
Import Np ChunkPlanner ChunkPlannerFacts DuplicateResolver PairwiseMerge
  Orchestrator.

Lemma cleared_refl l : cleared l l.
Proof. apply Forall2_same_length_lookup_2; [done|]. intros; left; congruence. Qed.

Lemma cleared_trans l1 l2 l3 : cleared l1 l2 -> cleared l2 l3 -> cleared l1 l3.
Proof.
  unfold cleared. intros H12 H23.
  eapply Forall2_trans; [|exact H12|exact H23]. simpl.
  intros e1 e2 e3 H1 H2. destruct H1, H2; subst; simpl; auto.
Qed.

Lemma clear_label_cleared l i : cleared l (clear_label l i).
Proof.
  unfold clear_label. apply Forall2_alter_r; [apply cleared_refl|].
  intros e e' _ _ He. destruct He; subst; by right.
Qed.

Lemma foldl_clear_label_cleared ps : forall l, cleared l (foldl clear_label l ps).
Proof.
  induction ps as [|p ps IH]; intros l; simpl; [apply cleared_refl|].
  eapply cleared_trans; [apply clear_label_cleared|apply IH].
Qed.

Lemma foldl_remove_unit_duplicates_cleared tol us : forall l,
  cleared l (foldl (remove_unit_duplicates tol) l us).
Proof.
  induction us as [|u us IH]; intros l; simpl; [apply cleared_refl|].
  eapply cleared_trans; [|apply IH]. apply foldl_clear_label_cleared.
Qed.

Lemma drop_removed_sublist l l' : cleared l l' -> sublist (drop_removed l') l.
Proof.
  unfold drop_removed. induction 1 as [|e e' l l' He Hl IH]; [constructor|].
  rewrite filter_cons. destruct He; subst.
  - case_decide; [by apply sublist_skip|by apply sublist_cons].
  - by apply sublist_cons.
Qed.

(** The duplicate removal leaves a sub-sequence of its input. *)
Lemma remove_duplicate_events_sublist events tol :
  sublist (remove_duplicate_events events tol) events.
Proof. apply drop_removed_sublist, foldl_remove_unit_duplicates_cleared. Qed.

Lemma StronglySorted_sublist {A} (R : relation A) l1 l2 :
  sublist l1 l2 -> StronglySorted R l2 -> StronglySorted R l1.
Proof.
  induction 1 as [|x l1 l2 Hsub IH|x l1 l2 Hsub IH]; intros Hs; [done| |].
  - apply StronglySorted_cons in Hs as [Hall Hs].
    apply StronglySorted_cons. split; [|by apply IH].
    rewrite Forall_forall in Hall. apply Forall_forall.
    intros y Hy. apply Hall. by eapply elem_of_sublist.
  - apply StronglySorted_cons in Hs as [_ Hs]. by apply IH.
Qed.

Lemma ascending_sublist l1 l2 : sublist l1 l2 -> ascending l2 -> ascending l1.
Proof.
  unfold ascending. intros Hsub. apply StronglySorted_sublist.
  by apply fmap_sublist.
Qed.

Lemma chunk_size_pos num_channels : 0 < num_channels -> 0 < chunk_size num_channels.
Proof.
  intros H. unfold chunk_size.
  apply Z.div_str_pos. lia.
Qed.

(** For a chunk as the planner builds it, the margin test on a local time is
    the core test on the global time. *)
Lemma in_window_in_core num_samples padding c t :
  padding_clipped num_samples padding c ->
  in_window c t <-> in_core c (t + start c - padding_left c).
Proof.
  intros (_ & _ & _ & _ & Htot). unfold in_window, in_core. lia.
Qed.

(** Concatenating, in tiling order, ascending pieces that each stay in the
    core of their chunk gives an ascending sequence. *)
Lemma concat_tiles_ascending (f : TimeChunk -> list event) : forall chunks a b,
  tiles a b chunks ->
  (forall c, c ∈ chunks ->
     ascending (f c) /\ Forall (fun e => in_core c (time e)) (f c)) ->
  ascending (concat (map f chunks)) /\
  Forall (fun e => a <= time e) (concat (map f chunks)).
Proof.
  induction chunks as [|c chunks IH]; intros a b Ht Hf; simpl.
  { split; constructor. }
  destruct Ht as (Hs & Hlt & Hle & Ht).
  destruct (IH _ _ Ht) as [Hasc Hlow]; [intros c' Hc'; apply Hf; by right|].
  destruct (Hf c) as [Hc Hcore]; [by left|].
  rewrite Forall_forall in Hcore, Hlow. split.
  - unfold ascending in *. rewrite fmap_app.
    apply StronglySorted_app_2; [|done|done].
    intros t1 t2 Ht1 Ht2.
    apply list_elem_of_fmap in Ht1 as (e1 & -> & He1).
    apply list_elem_of_fmap in Ht2 as (e2 & -> & He2).
    specialize (Hcore _ He1). specialize (Hlow _ He2).
    unfold in_core in Hcore. lia.
  - apply Forall_app. split; apply Forall_forall; intros e He.
    + specialize (Hcore _ He). unfold in_core in Hcore. lia.
    + specialize (Hlow _ He). lia.
Qed.

(** *** The extent of what phase 2 loads for one chunk *)

(** X13: For every chunk of the plan that phase 2 uses, the frames requested from
    the recording, [start - padding_left] to [end + padding_right], form a
    non-empty range inside the recording of [total_size] frames, and the
    traces of the chunk hold fewer than [100e6 + 2001 * num_channels]
    values. *)
Theorem phase2_chunk_extent (num_samples num_channels : Z) :
  0 < num_channels ->
  exists chunks,
    (forall fuel, (Z.to_nat num_samples <= fuel)%nat ->
       get_time_chunks fuel num_samples (chunk_size num_channels) 1000
         = Some chunks) /\
    Forall (fun c =>
      0 <= start c - padding_left c /\
      start c - padding_left c < end_ c + padding_right c /\
      end_ c + padding_right c <= num_samples /\
      total_size c = (end_ c + padding_right c) - (start c - padding_left c) /\
      end_ c - start c <= chunk_size num_channels /\
      total_size c * num_channels < 100000000 + 2001 * num_channels) chunks.
Proof.
  intros Hc. pose proof (chunk_size_pos _ Hc) as Hcs.
  destruct (get_time_chunks_returns_tiling num_samples
              (chunk_size num_channels) 1000 Hcs)
    as (chunks & Hrun & Htiles & Hclip).
  exists chunks. split; [exact Hrun|].
  destruct (get_time_chunks_loop_closed_form num_samples
              (chunk_size num_channels) 1000 Hcs (Z.to_nat num_samples) 0 [])
    as (rest & Hrest & _ & Hform); [lia|].
  specialize (Hrun (Z.to_nat num_samples) (Nat.le_refl _)).
  unfold get_time_chunks in Hrun. rewrite Hrun in Hrest. simpl in Hrest.
  injection Hrest as <-.
  assert (Hmul : num_channels * chunk_size num_channels
                 <= 100000000 + num_channels - 1).
  { unfold chunk_size. apply Z.mul_div_le. lia. }
  rewrite Forall_forall in Hclip. apply Forall_forall. intros c Hin.
  destruct (Hclip c Hin) as (Hpl & Hpr & Hl & Hr & Htot).
  destruct (tiles_lower _ _ _ _ Htiles Hin) as [H0 HN].
  pose proof (tiles_core_nonempty _ _ _ _ Htiles Hin) as Hcore.
  apply list_elem_of_lookup in Hin as [k Hk].
  destruct (Hform k c Hk) as [Hstart Hend].
  assert (Hsize : end_ c - start c <= chunk_size num_channels) by lia.
  split_and!; [lia|lia|lia|lia|lia|].
  assert (total_size c <= chunk_size num_channels + 2000) by lia.
  nia.
Qed.

Lemma phase2_chunk_extent_witness :
  0 < 384 /\
  exists chunks,
    get_time_chunks 5 5 (chunk_size 384) 1000 = Some chunks /\
    Forall (fun c => total_size c * 384 < 100000000 + 2001 * 384) chunks.
Proof.
  split; [lia|].
  destruct (phase2_chunk_extent 5 384 ltac:(lia)) as (chunks & Hrun & Hall).
  exists chunks. split; [apply (Hrun 5%nat); simpl; lia|].
  eapply Forall_impl; [exact Hall|]. simpl. intros c (_ & _ & _ & _ & _ & H).
  exact H.
Defined.

Section Phase2Facts.

Variables traces snippet_batch : Type.
Variable get_traces : Z -> Z -> traces.
Variable detect_spikes : traces -> Z -> list Z * list Z.
Variable extract_snippets : traces -> list Z -> list Z -> snippet_batch.
Variable classify_snippets : snippet_batch -> list Z * list Z.
Variable sort_by_time : list event -> list event.
Variable time_radius : Z.

Hypothesis sort_by_time_ascending : forall l, ascending (sort_by_time l).

Local Abbreviation classify_chunk :=
  (classify_chunk traces snippet_batch get_traces detect_spikes
     extract_snippets classify_snippets time_radius).
Local Abbreviation process_chunk :=
  (process_chunk traces snippet_batch get_traces detect_spikes
     extract_snippets classify_snippets sort_by_time time_radius).
Local Abbreviation sorting_scheme2_phase2 :=
  (sorting_scheme2_phase2 traces snippet_batch get_traces detect_spikes
     extract_snippets classify_snippets sort_by_time time_radius).

Lemma process_chunk_elem c e :
  e ∈ process_chunk c <->
  exists e0,
    e0 ∈ remove_duplicate_events (sort_by_time (classify_chunk c)) time_radius /\
    in_window c (time e0) /\
    e = Event (time e0 + start c - padding_left c) (label e0).
Proof.
  unfold Orchestrator.process_chunk. rewrite list_elem_of_fmap.
  split; intros (e0 & H1 & H2).
  - apply list_elem_of_filter in H2 as [Hw Hin]. by exists e0.
  - destruct H2 as [Hw ->]. exists e0. split; [done|].
    by apply list_elem_of_filter.
Qed.

Lemma process_chunk_ascending c : ascending (process_chunk c).
Proof.
  unfold Orchestrator.process_chunk, ascending.
  rewrite <- list_fmap_compose.
  set (valid := filter _ _).
  assert (Hvalid : ascending valid).
  { eapply ascending_sublist; [apply sublist_filter|].
    eapply ascending_sublist; [apply remove_duplicate_events_sublist|].
    apply sort_by_time_ascending. }
  unfold ascending in Hvalid.
  replace (time ∘ _ <$> valid)
    with ((fun t => t + start c - padding_left c) <$> (time <$> valid)).
  - eapply StronglySorted_fmap; [|exact Hvalid]. simpl. intros x y Hxy. lia.
  - rewrite <- list_fmap_compose. by apply list_fmap_ext.
Qed.

Lemma process_chunk_in_core num_samples padding c :
  padding_clipped num_samples padding c ->
  Forall (fun e => in_core c (time e)) (process_chunk c).
Proof.
  intros Hc. apply Forall_forall. intros e He.
  apply process_chunk_elem in He as (e0 & _ & Hw & ->). simpl.
  by apply (in_window_in_core num_samples padding).
Qed.



End Phase2Facts.

Lemma sort_events_ascending l : ascending (sort_events l).
Proof.
  unfold ascending, sort_events.
  apply (StronglySorted_fmap time time_le Z.le); [done|].
  apply Sorted_StronglySorted.
  - intros x y z. unfold time_le. lia.
  - apply Sorted_merge_sort. intros x y. unfold time_le. lia.
Qed.


End OrchestratorFacts.

(** ** Properties of the whole [pairwise_merge_step] *)

Module StepFacts.
Import Np MergeTester DuplicateResolver PairwiseMerge Orchestrator.
Import DuplicateResolverFacts PairwiseMergeFacts OrchestratorFacts.

Section WholeStep.

Variable compute_pca_features : list (list Q) -> Z -> result (list (list Q)).
Variable isosplit6 : list (list Q) -> result (list Z).
Variable sort_by_time : list event -> list event.

(** What [np.argsort] followed by the reordering of both arrays gives: a
    rearrangement of the rows that is ascending in time. *)
Hypothesis sort_by_time_ascending : forall l, ascending (sort_by_time l).
Hypothesis sort_by_time_permutation : forall l, sort_by_time l ≡ₚ l.


End WholeStep.


End StepFacts.

(** ** Properties of the training loop of [sorting_scheme2] *)

Module TrainingFacts.
Import Np NpFacts MergeTester PairwiseMerge Orchestrator Training.
Import MergeTesterFacts PairwiseMergeFacts OrchestratorFacts.

(** *** [subsample_snippets] *)

Lemma sublist_lookup_total_sorted {A} `{Inhabited A} : forall (xs : list A) k ps,
  StronglySorted lt ps ->
  Forall (fun p => (k <= p < k + length xs)%nat) ps ->
  sublist (map (fun p => xs !!! (p - k)%nat) ps) xs.
Proof.
  induction xs as [|x xs IH]; intros k ps Hs Hall.
  { destruct ps as [|p ps]; [constructor|].
    apply Forall_cons in Hall as [Hp _]. simpl in Hp. lia. }
  destruct ps as [|p ps]; [apply sublist_nil_l|].
  apply StronglySorted_cons in Hs as [Hgt Hs'].
  apply Forall_cons in Hall as [Hp Hall'].
  assert (Hshift : forall qs,
            Forall (fun q => (S k <= q < S k + length xs)%nat) qs ->
            map (fun q => (x :: xs) !!! (q - k)%nat) qs
            = map (fun q => xs !!! (q - S k)%nat) qs).
  { intros qs Hqs. apply map_ext_Forall. eapply Forall_impl; [exact Hqs|].
    intros q Hq. simpl in Hq.
    replace (q - k)%nat with (S (q - S k)) by lia. done. }
  destruct (decide (p = k)) as [->|Hpk].
  - assert (Hps : Forall (fun q => (S k <= q < S k + length xs)%nat) ps).
    { rewrite Forall_forall in *. intros q Hq.
      specialize (Hgt q Hq). specialize (Hall' q Hq). simpl in Hall'. lia. }
    cbn [map]. rewrite Nat.sub_diag, Hshift by done. simpl.
    apply sublist_skip, IH; done.
  - assert (Hps : Forall (fun q => (S k <= q < S k + length xs)%nat) (p :: ps)).
    { constructor; [simpl in Hp; lia|].
      rewrite Forall_forall in *. intros q Hq.
      specialize (Hgt q Hq). specialize (Hall' q Hq). simpl in Hall'. lia. }
    rewrite Hshift by done.
    apply sublist_cons, IH; [by constructor|done].
Qed.

Lemma StronglySorted_map_seq (f : nat -> nat) : forall n a,
  (forall i j, (a <= i < j)%nat -> (j < a + n)%nat -> (f i < f j)%nat) ->
  StronglySorted lt (map f (seq a n)).
Proof.
  induction n as [|n IH]; intros a Hmono; [constructor|]. simpl.
  constructor.
  - apply IH. intros i j Hij Hj. apply Hmono; lia.
  - apply Forall_forall. intros y Hy.
    apply list_elem_of_fmap in Hy as (j & -> & Hj).
    apply elem_of_seq in Hj. apply Hmono; lia.
Qed.

(** The positions [i * n // m] for [0 <= i < m < n]. *)
Lemma subsample_index_bound (i n m : Z) :
  0 <= i < m -> 0 < n -> 0 <= i * n / m < n.
Proof.
  intros Hi Hn. split.
  - apply Z.div_pos; nia.
  - apply Z.div_lt_upper_bound; nia.
Qed.

Lemma subsample_index_mono (i j n m : Z) :
  0 <= i < j -> 0 < m < n -> i * n / m < j * n / m.
Proof.
  intros Hij Hm.
  assert (H1 : i * n / m + 1 = (i * n + 1 * m) / m)
    by (rewrite Z.div_add; lia).
  assert (H2 : (i * n + 1 * m) / m <= j * n / m)
    by (apply Z.div_le_mono; nia).
  lia.
Qed.

Lemma subsample_snippets_many {A} `{Inhabited A} (snippets : list A)
    (max_num : Z) :
  Z.of_nat (length snippets) > max_num ->
  subsample_snippets snippets max_num
  = map (fun j => snippets !!!
                    Z.to_nat (Z.of_nat j * Z.of_nat (length snippets) / max_num))
        (seq 0 (Z.to_nat max_num)).
Proof.
  intros Hn. unfold subsample_snippets, arange.
  destruct (Z.gtb_spec (Z.of_nat (length snippets)) max_num); [|lia].
  by rewrite !map_map.
Qed.

Lemma subsample_snippets_few {A} `{Inhabited A} (snippets : list A)
    (max_num : Z) :
  Z.of_nat (length snippets) <= max_num ->
  subsample_snippets snippets max_num = snippets.
Proof.
  intros Hn. unfold subsample_snippets.
  destruct (Z.gtb_spec (Z.of_nat (length snippets)) max_num); [lia|done].
Qed.

Lemma subsample_snippets_sublist {A} `{Inhabited A} (snippets : list A)
    (max_num : Z) :
  sublist (subsample_snippets snippets max_num) snippets.
Proof.
  destruct (decide (Z.of_nat (length snippets) <= max_num)) as [Hle|Hgt].
  { by rewrite subsample_snippets_few. }
  rewrite subsample_snippets_many by lia.
  set (n := Z.of_nat (length snippets)).
  set (f := fun j : nat => Z.to_nat (Z.of_nat j * n / max_num)).
  assert (Hmap : map (fun j => snippets !!! f j) (seq 0 (Z.to_nat max_num))
                 = map (fun p => snippets !!! (p - 0)%nat)
                       (map f (seq 0 (Z.to_nat max_num)))).
  { rewrite map_map. apply map_ext. intros j. by rewrite Nat.sub_0_r. }
  unfold f in Hmap. fold n. rewrite Hmap.
  apply sublist_lookup_total_sorted.
  - apply StronglySorted_map_seq. intros i j Hij Hj.
    assert (Hm : 0 < max_num < n) by lia.
    pose proof (subsample_index_mono (Z.of_nat i) (Z.of_nat j) n max_num
                  ltac:(lia) Hm).
    pose proof (subsample_index_bound (Z.of_nat i) n max_num ltac:(lia)
                  ltac:(lia)).
    lia.
  - apply Forall_forall. intros p Hp.
    apply list_elem_of_fmap in Hp as (j & -> & Hj). apply elem_of_seq in Hj.
    pose proof (subsample_index_bound (Z.of_nat j) n max_num ltac:(lia)
                  ltac:(lia)).
    unfold n in *. lia.
Qed.

Lemma length_subsample_snippets {A} `{Inhabited A} (snippets : list A)
    (max_num : Z) :
  length (subsample_snippets snippets max_num)
  = Z.to_nat (Z.min (Z.of_nat (length snippets)) (Z.max 0 max_num)).
Proof.
  destruct (decide (Z.of_nat (length snippets) <= max_num)) as [Hle|Hgt].
  - rewrite subsample_snippets_few by done. lia.
  - rewrite subsample_snippets_many by lia.
    rewrite length_map, length_seq. lia.
Qed.

(** X15: [subsample_snippets] returns a sub-sequence of the snippets, in their
    order and without repetition: all of them when there are at most
    [max_num], and otherwise exactly [max_num] (none for [max_num <= 0]), the
    [j]-th being the snippet at position [j * num_snippets // max_num], which
    is in range; the first snippet is always among them. *)
Theorem subsample_snippets_spec
    (snippets : list (list (list Q))) (max_num : Z) :
  sublist (subsample_snippets snippets max_num) snippets /\
  length (subsample_snippets snippets max_num)
    = Z.to_nat (Z.min (Z.of_nat (length snippets)) (Z.max 0 max_num)) /\
  (Z.of_nat (length snippets) <= max_num ->
     subsample_snippets snippets max_num = snippets) /\
  (Z.of_nat (length snippets) > max_num ->
     forall j, (j < Z.to_nat max_num)%nat ->
       (Z.to_nat (Z.of_nat j * Z.of_nat (length snippets) / max_num)
          < length snippets)%nat /\
       subsample_snippets snippets max_num !! j
       = snippets !! Z.to_nat (Z.of_nat j * Z.of_nat (length snippets) / max_num)) /\
  (0 < max_num ->
     head (subsample_snippets snippets max_num) = head snippets).
Proof.
  split_and!.
  - apply subsample_snippets_sublist.
  - apply length_subsample_snippets.
  - apply subsample_snippets_few.
  - intros Hgt j Hj.
    pose proof (subsample_index_bound (Z.of_nat j)
                  (Z.of_nat (length snippets)) max_num ltac:(lia) ltac:(lia))
      as Hb.
    split; [lia|].
    rewrite subsample_snippets_many by done.
    rewrite list_lookup_fmap, lookup_seq_lt by done. simpl.
    symmetry. apply list_lookup_lookup_total_lt. lia.
  - intros Hpos.
    destruct (decide (Z.of_nat (length snippets) <= max_num)) as [Hle|Hgt].
    { by rewrite subsample_snippets_few. }
    rewrite subsample_snippets_many by lia.
    destruct (Z.to_nat max_num) as [|m] eqn:Hm; [lia|].
    destruct snippets as [|s snippets]; [simpl in Hgt; lia|].
    reflexivity.
Qed.

(** *** [get_times_labels_from_sorting] *)

Lemma zip_unit_events (sorting : list (Z * list Z)) :
  zip_with Event
    (concat (map (fun unit => unit.2) sorting))
    (concat (map (fun unit => map (fun _ => 1 * unit.1) unit.2) sorting))
  = concat (map (fun unit => map (fun t => Event t unit.1) unit.2) sorting).
Proof.
  induction sorting as [|[u ts] sorting IH]; [done|]. simpl.
  rewrite zip_with_app by by rewrite length_map.
  rewrite IH. f_equal.
  clear. induction ts as [|t ts IH]; [done|]. simpl. rewrite IH.
  by destruct u.
Qed.

(** X16: With no unit the concatenation fails with a [ValueError].  Otherwise the
    function returns the spikes of all units, each labelled with the id of
    its unit, rearranged in ascending order of time. *)
Theorem get_times_labels_from_sorting_spec
    (sort_by_time : list event -> list event) (sorting : list (Z * list Z)) :
  (forall l, ascending (sort_by_time l)) ->
  (forall l, sort_by_time l ≡ₚ l) ->
  (sorting = [] ->
     get_times_labels_from_sorting sort_by_time sorting = Raise ValueError) /\
  (sorting <> [] ->
     exists events,
       get_times_labels_from_sorting sort_by_time sorting = Ok events /\
       ascending events /\
       events ≡ₚ concat (map (fun unit => map (fun t => Event t unit.1) unit.2)
                           sorting)).
Proof.
  intros Hasc Hperm. split; [by intros ->|]. intros Hne.
  unfold get_times_labels_from_sorting, np_concatenate.
  destruct sorting as [|unit sorting]; [done|].
  set (units := unit :: sorting). cbn [map]. simpl. fold units.
  eexists. split; [reflexivity|]. split; [apply Hasc|].
  rewrite Hperm.
  pose proof (zip_unit_events units) as Hz. unfold units in Hz. simpl in Hz.
  unfold units. simpl. by rewrite Hz.
Qed.

Lemma get_times_labels_from_sorting_spec_witness :
  exists events,
    get_times_labels_from_sorting sort_events [(2, [50; 10]); (1, [30])]
      = Ok events /\
    ascending events.
Proof.
  destruct (get_times_labels_from_sorting_spec sort_events
              [(2, [50; 10]); (1, [30])] sort_events_ascending
              (fun l => merge_sort_Permutation time_le l))
    as [_ H].
  destruct (H ltac:(discriminate)) as (events & Hrun & Hasc & _).
  exists events. split; [exact Hrun|exact Hasc].
Defined.

(** *** [np.unique] *)

Lemma StronglySorted_le_NoDup_lt (l : list Z) :
  StronglySorted Z.le l -> NoDup l -> StronglySorted Z.lt l.
Proof.
  induction 1 as [|x l Hs IH Hall]; intros Hnd; [constructor|].
  apply NoDup_cons in Hnd as [Hx Hnd]. constructor; [by apply IH|].
  rewrite Forall_forall in *. intros y Hy.
  specialize (Hall y Hy). assert (x <> y) by (intros ->; done). lia.
Qed.

Lemma np_unique_spec (xs : list Z) :
  StronglySorted Z.lt (np_unique xs) /\
  forall x, x ∈ np_unique xs <-> x ∈ xs.
Proof.
  unfold np_unique. split.
  - apply StronglySorted_le_NoDup_lt.
    + apply StronglySorted_merge_sort; apply _.
    + rewrite merge_sort_Permutation. apply NoDup_remove_dups.
  - intros x. rewrite merge_sort_Permutation. apply elem_of_remove_dups.
Qed.

(** *** The training loop *)

Lemma max_axis0_returns (a : list (list Q)) :
  a <> [] -> exists vs, max_axis0 a = Ok vs.
Proof.
  intros Ha.
  destruct (mapM_returns (fun m => np_maxQ (channel a m))
              (seq 0 (num_channels a))) as [vs Hvs].
  - intros m _.
    destruct (np_argmax_maxQ_spec (channel a m)) as (t & v & _ & Hv & _);
      [by apply channel_nonempty|]. by exists v.
  - exists vs. by destruct a.
Qed.

Lemma argmax_axis0_returns (a : list (list Q)) :
  a <> [] -> exists ts, argmax_axis0 a = Ok ts.
Proof.
  intros Ha.
  destruct (mapM_returns (fun m => np_argmax (channel a m))
              (seq 0 (num_channels a))) as [ts Hts].
  - intros m _.
    destruct (np_argmax_maxQ_spec (channel a m)) as (t & v & Ht & _ & _);
      [by apply channel_nonempty|]. by exists t.
  - exists ts. by destruct a.
Qed.

Lemma rectify_template_shape (detect_sign : Z) (a : list (list Q)) :
  (a <> [] -> rectify_template detect_sign a <> []) /\
  num_channels (rectify_template detect_sign a) = num_channels a.
Proof.
  unfold rectify_template, num_channels.
  destruct (detect_sign <? 0); [|destruct (detect_sign >? 0)];
    destruct a as [|row a]; simpl; rewrite ?length_map; done.
Qed.

Lemma select_snippets_nonempty (snippets : list (list (list Q)))
    (labels : list Z) (k : Z) :
  select_snippets snippets labels k <> [] -> k ∈ labels.
Proof.
  unfold select_snippets. intros Hne.
  destruct (filter _ (zip snippets labels)) as [|[s lb] l] eqn:Hf; [done|].
  assert (Hin : (s, lb) ∈ filter (fun p : list (list Q) * Z => p.2 = k)
                            (zip snippets labels))
    by (rewrite Hf; by left).
  apply list_elem_of_filter in Hin as [Hk Hin]. simpl in Hk. subst lb.
  by apply elem_of_zip_r in Hin.
Qed.

Lemma foldl_offsets_elem (c : nat -> bool) (g : nat -> Z) : forall ms acc o,
  o ∈ foldl (fun offsets m => if c m then offsets ++ [g m] else offsets) acc ms
  <-> o ∈ acc \/ exists m, m ∈ ms /\ c m = true /\ o = g m.
Proof.
  induction ms as [|m ms IH]; intros acc o; simpl.
  { split; [by left|]. intros [H|(m & Hm & _)]; [done|].
    by apply elem_of_nil in Hm. }
  rewrite IH. destruct (c m) eqn:Hc.
  - rewrite elem_of_app, list_elem_of_singleton. split.
    + intros [[H | ->]|(m' & Hm' & Hc' & ->)]; [by left| |].
      * right. exists m. split; [by left|done].
      * right. exists m'. split; [by right|done].
    + intros [H|(m' & Hm' & Hc' & ->)]; [by left; left|].
      apply elem_of_cons in Hm' as [->|Hm']; [by left; right|].
      right. by exists m'.
  - split.
    + intros [H|(m' & Hm' & Hc' & ->)]; [by left|].
      right. exists m'. split; [by right|done].
    + intros [H|(m' & Hm' & Hc' & ->)]; [by left|].
      apply elem_of_cons in Hm' as [->|Hm']; [congruence|].
      right. by exists m'.
Qed.

Section TrainClassifierFacts.

Variable median : list (list (list Q)) -> list (list Q).
Variable detect_sign : Z.
Variable detect_threshold : Q.
Variable snippet_T1 : Z.
Variable max_num : Z.
Variable M : nat.
Variable T : nat.

Local Abbreviation offsets_to_include :=
  (offsets_to_include detect_threshold snippet_T1 M).
Local Abbreviation add_batches := (add_batches max_num).
Local Abbreviation train_unit :=
  (train_unit median detect_sign detect_threshold snippet_T1 max_num M T).
Local Abbreviation train_classifier :=
  (train_classifier median detect_sign detect_threshold snippet_T1 max_num M T).

(** The batch given to the classifier for one offset of one unit. *)
Local Abbreviation batch_of snippets0 k :=
  (fun o => TrainingBatch
              (subsample_snippets (offset_snippets snippets0 (- o)) max_num)
              k o).

(** The offsets of a template: ascending, without repetition, one for each
    distinct peak time of a channel whose peak exceeds half the threshold. *)
Lemma offsets_to_include_spec (AA : list (list Q)) :
  AA <> [] -> num_channels AA = M ->
  exists offsets,
    offsets_to_include AA = Ok offsets /\
    StronglySorted Z.lt offsets /\
    forall o, o ∈ offsets <->
      exists m t v, (m < M)%nat /\ peak_on_channel AA m t v /\
        (detect_threshold * (1 # 2) < v)%Q /\ o = Z.of_nat t - snippet_T1.
Proof.
  intros Hne HM. unfold Training.offsets_to_include.
  destruct (argmax_axis0_returns AA Hne) as [ts Hts].
  destruct (max_axis0_returns AA Hne) as [vs Hvs].
  rewrite Hts, Hvs. simpl. eexists. split; [reflexivity|].
  destruct (np_unique_spec
    (foldl (fun offsets m =>
              if Qgtb (vs !!! m) (detect_threshold * (1 # 2))
              then offsets ++ [Z.of_nat (ts !!! m) - snippet_T1]
              else offsets) [] (seq 0 M))) as [Hs Hel].
  split; [exact Hs|]. intros o. rewrite Hel.
  rewrite (foldl_offsets_elem
             (fun m => Qgtb (vs !!! m) (detect_threshold * (1 # 2)))
             (fun m => Z.of_nat (ts !!! m) - snippet_T1)).
  assert (Hpeak : forall m, (m < M)%nat ->
            peak_on_channel AA m (ts !!! m) (vs !!! m)).
  { intros m Hm. rewrite <- HM in Hm.
    destruct (max_axis0_spec AA vs Hvs) as (_ & _ & Hv).
    destruct (Hv m Hm) as (t & v & Hvm & Hp).
    destruct (argmax_axis0_spec AA ts Hts m Hm) as (t' & v' & Htm & Hp').
    destruct (peak_unique _ _ _ _ _ _ Hp Hp') as [-> ->].
    by rewrite (list_lookup_total_correct _ _ _ Hvm),
               (list_lookup_total_correct _ _ _ Htm). }
  split.
  - intros [H|(m & Hm & Hc & ->)]; [by apply elem_of_nil in H|].
    apply elem_of_seq in Hm. apply Qgtb_lt in Hc.
    exists m, (ts !!! m), (vs !!! m). split_and!; [lia| |done|done].
    apply Hpeak. lia.
  - intros (m & t & v & Hm & Hp & Hv & ->). right. exists m.
    destruct (peak_unique _ _ _ _ _ _ Hp (Hpeak m Hm)) as [-> ->].
    split_and!; [apply elem_of_seq; lia| |done]. by apply Qgtb_lt.
Qed.

Lemma add_batches_map snippets0 k : forall offsets batches,
  add_batches snippets0 k batches offsets
  = batches ++ map (batch_of snippets0 k) offsets.
Proof.
  unfold Training.add_batches.
  induction offsets as [|o offsets IH]; intros batches; simpl.
  { by rewrite app_nil_r. }
  by rewrite IH, <- app_assoc.
Qed.

(** The snippets have at least one time sample. *)
Hypothesis T_positive : (0 < T)%nat.

Local Abbreviation median_shaped := (median_shaped median T M).

Lemma train_unit_returns training_snippets labels batches k :
  median_shaped (select_snippets training_snippets labels k) ->
  exists offsets,
    train_unit training_snippets labels batches k
      = Ok (batches
            ++ map (batch_of (select_snippets training_snippets labels k) k)
                   offsets) /\
    StronglySorted Z.lt offsets /\
    (select_snippets training_snippets labels k = [] -> offsets = []) /\
    (select_snippets training_snippets labels k <> [] ->
       forall o, o ∈ offsets <->
         exists m t v, (m < M)%nat /\
           peak_on_channel
             (rectify_template detect_sign
                (median (select_snippets training_snippets labels k))) m t v /\
           (detect_threshold * (1 # 2) < v)%Q /\
           o = Z.of_nat t - snippet_T1).
Proof.
  intros Hshape. unfold Training.train_unit.
  destruct (select_snippets training_snippets labels k) as [|s0 ss] eqn:Hsel.
  { exists []. destruct T; [lia|]. simpl. rewrite app_nil_r.
    split_and!; [done|constructor|done|done]. }
  set (snippets0 := s0 :: ss) in *.
  assert (Hne : snippets0 <> []) by done.
  destruct (Hshape Hne) as [HT HM].
  destruct (rectify_template_shape detect_sign (median snippets0))
    as [Hne' HM'].
  destruct (offsets_to_include_spec
              (rectify_template detect_sign (median snippets0)))
    as (offsets & -> & Hs & Hel).
  - apply Hne'. intros Hnil. rewrite Hnil in HT. simpl in HT. lia.
  - by rewrite HM'.
  - exists offsets. simpl. rewrite add_batches_map.
    split_and!; [done|done|done|]. intros _. exact Hel.
Qed.

(** X17: One iteration of the training loop returns, and gives the classifier one
    batch for each offset of the unit, in ascending order of the offsets: the
    offsets are the peak times, less [snippet_T1], of the channels on which
    the rectified median template exceeds half the detection threshold; a
    label without events gives no batch.  Each batch carries the label of the
    unit, holds at most [max_num] snippets, and each of its snippets is a
    snippet of the unit rolled back by the offset: the sample at time [t]
    stands at time [(t - offset) mod T]. *)
Theorem train_unit_spec
    (training_snippets : list (list (list Q))) (labels : list Z)
    (batches : list training_batch) (k : Z) :
  median_shaped (select_snippets training_snippets labels k) ->
  exists news,
    train_unit training_snippets labels batches k = Ok (batches ++ news) /\
    StronglySorted Z.lt (map batch_offset news) /\
    (select_snippets training_snippets labels k = [] -> news = []) /\
    (select_snippets training_snippets labels k <> [] ->
       forall o, o ∈ map batch_offset news <->
         exists m t v, (m < M)%nat /\
           peak_on_channel
             (rectify_template detect_sign
                (median (select_snippets training_snippets labels k))) m t v /\
           (detect_threshold * (1 # 2) < v)%Q /\
           o = Z.of_nat t - snippet_T1) /\
    Forall (fun b =>
      batch_label b = k /\
      length (batch_snippets b)
        = Z.to_nat
            (Z.min (Z.of_nat
                      (length (select_snippets training_snippets labels k)))
                   (Z.max 0 max_num)) /\
      Forall (fun s' =>
        exists s, s ∈ select_snippets training_snippets labels k /\
          length s' = length s /\
          forall t, (t < length s)%nat ->
            s' !! Z.to_nat ((Z.of_nat t - batch_offset b)
                            mod Z.of_nat (length s))
            = s !! t) (batch_snippets b)) news.
Proof.
  intros Hshape.
  destruct (train_unit_returns training_snippets labels batches k Hshape)
    as (offsets & Hrun & Hs & Hnil & Hel).
  set (snippets0 := select_snippets training_snippets labels k) in *.
  exists (map (batch_of snippets0 k) offsets).
  assert (Hoff : map batch_offset (map (batch_of snippets0 k) offsets) = offsets).
  { rewrite map_map. simpl. apply map_id. }
  rewrite Hoff.
  split_and!; [done|done| |done|].
  - intros H. by rewrite (Hnil H).
  - apply Forall_forall. intros b Hb.
    apply list_elem_of_fmap in Hb as (o & -> & Ho). simpl.
    split_and!; [done| |].
    + rewrite length_subsample_snippets.
      unfold offset_snippets. by rewrite length_map.
    + apply Forall_forall. intros s' Hs'.
      pose proof (subsample_snippets_sublist
                    (offset_snippets snippets0 (- o)) max_num) as Hsub.
      apply (elem_of_sublist _ _ _ Hs') in Hsub.
      unfold offset_snippets in Hsub.
      apply list_elem_of_fmap in Hsub as (s & -> & Hin).
      exists s. split; [done|]. split; [apply length_roll|].
      intros t Ht.
      assert (Hn : 0 < Z.of_nat (length s)) by lia.
      pose proof (Z.mod_pos_bound (Z.of_nat t - o) _ Hn) as Hr.
      rewrite roll_lookup by lia. f_equal.
      rewrite Z2Nat.id by lia. rewrite Zminus_mod_idemp_l.
      replace (Z.of_nat t - o - - o) with (Z.of_nat t) by lia.
      rewrite Z.mod_small; lia.
Qed.

Lemma range_sorted : forall n a,
  StronglySorted Z.lt (map Z.of_nat (seq a n)).
Proof.
  induction n as [|n IH]; intros a; [constructor|]. simpl.
  constructor; [apply IH|].
  apply Forall_forall. intros y Hy.
  apply list_elem_of_fmap in Hy as (j & -> & Hj).
  apply elem_of_seq in Hj. lia.
Qed.

Lemma for_each_train_unit training_snippets labels :
  (forall k, median_shaped (select_snippets training_snippets labels k)) ->
  forall ks batches,
    StronglySorted Z.lt ks ->
    exists rest,
      for_each (train_unit training_snippets labels) batches ks
        = Ok (batches ++ rest) /\
      StronglySorted
        (fun b b' => batch_label b < batch_label b' \/
                     (batch_label b = batch_label b' /\
                      batch_offset b < batch_offset b')) rest /\
      Forall (fun b => batch_label b ∈ ks /\ batch_label b ∈ labels) rest.
Proof.
  intros Hshape.
  induction ks as [|k ks IH]; intros batches Hs.
  { exists []. simpl. rewrite app_nil_r. split_and!; [done|constructor|done]. }
  apply StronglySorted_cons in Hs as [Hgt Hs'].
  destruct (train_unit_returns training_snippets labels batches k (Hshape k))
    as (offsets & Hrun & Hso & Hnil & _).
  set (news := map (batch_of (select_snippets training_snippets labels k) k)
                   offsets) in *.
  destruct (IH (batches ++ news) Hs') as (rest & Hrest & Hsr & Hall).
  exists (news ++ rest). cbn [for_each]. rewrite Hrun. simpl.
  rewrite Hrest, <- app_assoc.
  assert (Hnews : forall b, b ∈ news ->
            batch_label b = k /\ k ∈ labels).
  { intros b Hb. apply list_elem_of_fmap in Hb as (o & -> & Ho). simpl.
    split; [done|]. apply (select_snippets_nonempty training_snippets).
    intros Hsel. rewrite (Hnil Hsel) in Ho. by apply elem_of_nil in Ho. }
  rewrite Forall_forall in Hall. rewrite Forall_forall in Hgt.
  split_and!; [done| |].
  - apply StronglySorted_app_2; [| |done].
    + intros b b' Hb Hb'. left.
      destruct (Hnews b Hb) as [-> _]. destruct (Hall b' Hb') as [Hk _].
      by apply Hgt.
    + apply (StronglySorted_fmap _ Z.lt); [|done]. intros x y Hxy. by right.
  - apply Forall_forall. intros b Hb.
    apply elem_of_app in Hb as [Hb|Hb].
    + destruct (Hnews b Hb) as [-> Hk]. split; [by left|done].
    + destruct (Hall b Hb) as [Hk Hl]. split; [by right|done].
Qed.

(** X18: The training loop as a whole.  Without any event [np.max] fails with a
    [ValueError].  Otherwise the loop returns; the batches that the
    classifier has been given are in ascending order of their labels and,
    within a label, of their offsets, so that no two batches share label and
    offset; every batch label lies between [1] and the largest label and is
    the label of some event. *)
Theorem train_classifier_spec
    (training_snippets : list (list (list Q))) (labels : list Z) :
  (forall k, median_shaped (select_snippets training_snippets labels k)) ->
  (labels = [] ->
     train_classifier training_snippets labels = Raise ValueError) /\
  (labels <> [] ->
     exists K batches,
       np_max labels = Ok K /\
       train_classifier training_snippets labels = Ok batches /\
       StronglySorted
         (fun b b' => batch_label b < batch_label b' \/
                      (batch_label b = batch_label b' /\
                       batch_offset b < batch_offset b')) batches /\
       Forall (fun b => 1 <= batch_label b <= K /\ batch_label b ∈ labels)
              batches).
Proof.
  intros Hshape. split; [by intros ->|]. intros Hne.
  unfold Training.train_classifier.
  destruct labels as [|l0 ls] eqn:Hl; [done|].
  rewrite <- Hl in *.
  assert (HK : exists K, np_max labels = Ok K) by (rewrite Hl; by eexists).
  destruct HK as [K HK]. rewrite HK. simpl.
  destruct (for_each_train_unit training_snippets labels Hshape
              (map Z.of_nat (seq 1 (Z.to_nat K))) [] (range_sorted _ _))
    as (rest & Hrun & Hs & Hall).
  exists K, rest. split_and!; [done|done|done|].
  eapply Forall_impl; [exact Hall|]. simpl. intros b [Hk Hin].
  split; [|done].
  apply list_elem_of_fmap in Hk as (j & -> & Hj). apply elem_of_seq in Hj. lia.
Qed.

End TrainClassifierFacts.

Lemma median_shaped_single (k : Z) :
  median_shaped (hd []) 2 1 (select_snippets [template_a] [1] k).
Proof.
  intros Hne. unfold select_snippets in *. simpl in *.
  destruct (decide (1 = k)) as [Hk|Hk].
  - rewrite filter_cons_True in * by done. split; reflexivity.
  - rewrite filter_cons_False in Hne by done. done.
Qed.

Lemma train_unit_spec_witness :
  exists news,
    train_unit (hd []) 1 (2 # 1) 1 10 1 2 [template_a] [1] [] 1
      = Ok ([] ++ news) /\
    StronglySorted Z.lt (map batch_offset news).
Proof.
  destruct (train_unit_spec (hd []) 1 (2 # 1) 1 10 1 2 ltac:(lia)
              [template_a] [1] [] 1 (median_shaped_single 1))
    as (news & Hrun & Hs & _).
  exists news. split; [exact Hrun|exact Hs].
Defined.

Lemma train_classifier_spec_witness :
  exists K batches,
    np_max [1] = Ok K /\
    train_classifier (hd []) 1 (2 # 1) 1 10 1 2 [template_a] [1] = Ok batches.
Proof.
  destruct (train_classifier_spec (hd []) 1 (2 # 1) 1 10 1 2 ltac:(lia)
              [template_a] [1] median_shaped_single) as [_ H].
  destruct (H ltac:(discriminate)) as (K & batches & HK & Hrun & _).
  exists K, batches. split; [exact HK|exact Hrun].
Defined.

End TrainingFacts.
